(** * nodeFT: nodes of a file tree

    A shallow embedding of [3FT/nodeFT.c].  A [Node_T] is a pointer to a
    heap-allocated [struct node]; the embedding keeps the heap explicit
    (a finite map from addresses to node records), because parent
    back-pointers and the children arrays alias the same nodes.

    The two collaborators of the module, the Path value type and the
    DynArray container, are not among the sources; they are modelled from
    the specification in the first two parts of the file.

    Values of type [size_t] (indices, lengths, depths, counts of nodes)
    are natural numbers: each is bounded by the size of an object that
    exists in memory, so the arithmetic of the module does not wrap. *)

From Stdlib Require Import ZArith Ascii String.
From stdpp Require Import gmap list fin_maps.

Local Open Scope Z_scope.
Set Warnings "-register-all".

(** ** Outcomes

    A C call either returns, or runs into undefined behaviour (a failed
    [assert], a dereference of a freed node), or -- in the model only --
    exhausts the fuel given to a loop. *)

Inductive outcome (A : Type) : Type :=
| Ok (a : A)
| Fault
| Timeout.

Arguments Ok {A} a.
Arguments Fault {A}.
Arguments Timeout {A}.

#[global] Instance outcome_ret : MRet outcome := fun A a => Ok a.
#[global] Instance outcome_bind : MBind outcome := fun A B f m =>
  match m with
  | Ok a => f a
  | Fault => Fault
  | Timeout => Timeout
  end.

(** ** Paths

    [path.c] is not among the sources.  A path is modelled as the
    sequence of its components. *)

(** Modelled from the spec: the Path value type, which "exposes depth,
    shared-prefix depth, pathname string, and lexicographic comparison";
    a path is its sequence of components. *)
Definition Path : Type := list string.

(** Modelled from the spec: the depth of a path, the number of its
    components. *)
Definition Path_getDepth (oPPath : Path) : nat := length oPPath.

(** Modelled from the spec: the pathname string, the components joined
    with slashes. *)
Definition Path_getPathname (oPPath : Path) : string :=
  String.concat "/" oPPath.

(** Modelled from the spec: the shared-prefix depth of two paths, the
    number of leading components they have in common. *)
Fixpoint Path_getSharedPrefixDepth (oPPath1 oPPath2 : Path) : nat :=
  match oPPath1, oPPath2 with
  | c1 :: r1, c2 :: r2 =>
      if String.eqb c1 c2 then S (Path_getSharedPrefixDepth r1 r2) else O
  | _, _ => O
  end.

(** [strcmp] of the C library, up to the magnitude of a non-zero result
    (which C leaves open): characters compare as unsigned bytes. *)
Definition strcmp (s t : string) : Z :=
  match String.compare s t with
  | Eq => 0
  | Lt => -1
  | Gt => 1
  end.

(** Modelled from the spec: the lexicographic comparison of two paths,
    by pathname. *)
Definition Path_comparePath (oPPath1 oPPath2 : Path) : Z :=
  strcmp (Path_getPathname oPPath1) (Path_getPathname oPPath2).

(** Modelled from the spec: the comparison of a path with a pathname
    string. *)
Definition Path_compareString (oPPath : Path) (pcStr : string) : Z :=
  strcmp (Path_getPathname oPPath) pcStr.

(** Modelled from the spec: the status codes of [a4def.h] that
    [nodeFT.c] returns. *)
Inductive status : Type :=
| SUCCESS
| MEMORY_ERROR
| CONFLICTING_PATH
| NO_SUCH_PATH
| ALREADY_IN_TREE.

#[global] Instance status_eq_dec : EqDecision status.
Proof. solve_decision. Defined.

(** Modelled from the spec: [Path_dup], whose only failure is that of
    the allocation ("any duplication failure yields MemoryError"), told
    by [ok].  The result is the status and the copy left in
    [*poPResult]. *)
Definition Path_dup (ok : bool) (oPPath : Path) : status * option Path :=
  if ok then (SUCCESS, Some oPPath) else (MEMORY_ERROR, None).

(** ** Dynamic arrays

    [dynarray.c] is not among the sources.  The container is "an
    ordered, index-addressable container supporting sorted
    insertion-at-index, binary search by comparator, removal-at-index,
    and length query"; an array is modelled as the list of its elements.
    An index outside the array breaks the contract of the container
    ([Fault]). *)
Section DynArray.
Context {A : Type}.

(** Modelled from the spec: [DynArray_new(0)], an empty array, or [NULL]
    when the allocation fails. *)
Definition DynArray_new (ok : bool) : option (list A) :=
  if ok then Some [] else None.

(** Modelled from the spec: the length query. *)
Definition DynArray_getLength (oDynArray : list A) : nat :=
  length oDynArray.

(** Modelled from the spec: positional access. *)
Definition DynArray_get (oDynArray : list A) (ulIndex : nat) : outcome A :=
  match oDynArray !! ulIndex with
  | Some x => Ok x
  | None => Fault
  end.

(** Modelled from the spec: insertion at an index.  The array may have
    to grow; [grow_ok] says whether the allocator grants it, and the
    array is unchanged when it does not.  The result is the success flag
    and the array after the call. *)
Definition DynArray_addAt (grow_ok : bool) (oDynArray : list A)
    (ulIndex : nat) (pvElement : A) : outcome (bool * list A) :=
  if decide (ulIndex ≤ length oDynArray)%nat then
    if grow_ok
    then Ok (true, take ulIndex oDynArray ++ pvElement :: drop ulIndex oDynArray)
    else Ok (false, oDynArray)
  else Fault.

(** Modelled from the spec: removal at an index.  The result is the
    element removed and the array after the call. *)
Definition DynArray_removeAt (oDynArray : list A) (ulIndex : nat)
    : outcome (A * list A) :=
  match oDynArray !! ulIndex with
  | Some x => Ok (x, delete ulIndex oDynArray)
  | None => Fault
  end.

(** Modelled from the spec: the loop of the binary search, over the
    index range from [ulLo] (included) to [ulHi] (excluded).
    [pfCompare x] compares the array element [x] with the key. *)
Fixpoint bsearch_loop (pfCompare : A → outcome Z) (oDynArray : list A)
    (fuel ulLo ulHi : nat) : outcome (bool * nat) :=
  if decide (ulHi ≤ ulLo)%nat then Ok (false, ulLo)
  else
    match fuel with
    | O => Timeout
    | S fuel' =>
        let ulMid := (ulLo + (ulHi - ulLo) / 2)%nat in
        x ← DynArray_get oDynArray ulMid;
        iCmp ← pfCompare x;
        if decide (iCmp = 0) then Ok (true, ulMid)
        else if decide (iCmp < 0)
             then bsearch_loop pfCompare oDynArray fuel' (S ulMid) ulHi
             else bsearch_loop pfCompare oDynArray fuel' ulLo ulMid
    end.

(** Modelled from the spec: binary search by a comparator.  The result
    is the found flag and the index written to the caller: the index of
    the element when one is found, the insertion position otherwise.
    The length of the array is fuel enough for the loop. *)
Definition DynArray_bsearch (pfCompare : A → outcome Z)
    (oDynArray : list A) : outcome (bool * nat) :=
  bsearch_loop pfCompare oDynArray (length oDynArray) 0 (length oDynArray).
End DynArray.

(** ** Nodes and the heap *)

Definition addr : Type := nat.

(** [struct node].  A [NULL] pointer is [None]; the two arrays are [NULL]
    only while the node is being freed.  File contents are an opaque
    pointer owned by the client. *)
Record node : Type := mkNode {
  isDir : bool;
  oPPath : Path;
  oNParent : option addr;
  oDDirChildren : option (list addr);
  oDFileChildren : option (list addr);
  fileContent : option nat;
  fileSize : nat
}.

#[global] Instance node_eq_dec : EqDecision node.
Proof. solve_decision. Defined.

Abbreviation heap := (gmap addr node).

Definition set_isDir (b : bool) (nd : node) : node :=
  mkNode b (oPPath nd) (oNParent nd) (oDDirChildren nd) (oDFileChildren nd)
         (fileContent nd) (fileSize nd).

Definition set_oDDirChildren (a : option (list addr)) (nd : node) : node :=
  mkNode (isDir nd) (oPPath nd) (oNParent nd) a (oDFileChildren nd)
         (fileContent nd) (fileSize nd).

Definition set_oDFileChildren (a : option (list addr)) (nd : node) : node :=
  mkNode (isDir nd) (oPPath nd) (oNParent nd) (oDDirChildren nd) a
         (fileContent nd) (fileSize nd).

Definition set_contents (c : option nat) (len : nat) (nd : node) : node :=
  mkNode (isDir nd) (oPPath nd) (oNParent nd) (oDDirChildren nd)
         (oDFileChildren nd) c len.

(** [oNNode->...]: reading through a pointer to a freed node is undefined. *)
Definition deref (h : heap) (oNNode : addr) : outcome node :=
  match h !! oNNode with
  | Some nd => Ok nd
  | None => Fault
  end.

(** The DynArray operations assert that the array is not [NULL]. *)
Definition array (a : option (list addr)) : outcome (list addr) :=
  match a with
  | Some l => Ok l
  | None => Fault
  end.

(** The allocator's answers during one call of [Node_new]. *)
Record allocs : Type := mkAllocs {
  malloc_ok : bool;      (* malloc(sizeof(struct node)) *)
  dup_ok : bool;         (* Path_dup *)
  dirs_ok : bool;        (* DynArray_new(0), directory children *)
  files_ok : bool;       (* DynArray_new(0), file children *)
  grow_ok : bool         (* growth inside DynArray_addAt *)
}.

Definition all_ok : allocs := mkAllocs true true true true true.

(** ** The operations of [nodeFT.c] *)

(** [Node_addChild]: links the child into the array chosen by [isDirec],
    at index [ulIndex]. *)
Definition Node_addChild (al : allocs) (h : heap) (oNParent oNChild : addr)
    (ulIndex : nat) (isDirec : bool) : outcome (status * heap) :=
  pn ← deref h oNParent;
  if isDirec then
    arr ← array (oDDirChildren pn);
    '(ok, arr') ← DynArray_addAt (grow_ok al) arr ulIndex oNChild;
    if ok : bool
    then Ok (SUCCESS, <[oNParent := set_oDDirChildren (Some arr') pn]> h)
    else Ok (MEMORY_ERROR, h)
  else
    arr ← array (oDFileChildren pn);
    '(ok, arr') ← DynArray_addAt (grow_ok al) arr ulIndex oNChild;
    if ok : bool
    then Ok (SUCCESS, <[oNParent := set_oDFileChildren (Some arr') pn]> h)
    else Ok (MEMORY_ERROR, h).

Definition Node_compareString (h : heap) (oNFirst : addr) (pcSecond : string)
    : outcome Z :=
  nd ← deref h oNFirst;
  Ok (Path_compareString (oPPath nd) pcSecond).

(** [Node_compare].  Both flag tests read the first node's flag, as the
    source does. *)
Definition Node_compare (h : heap) (oNFirst oNSecond : addr) : outcome Z :=
  n1 ← deref h oNFirst;
  n2 ← deref h oNSecond;
  if bool_decide (isDir n1 = false) && bool_decide (isDir n1 = true) then Ok (-1)
  else if bool_decide (isDir n1 = true) && bool_decide (isDir n1 = false) then Ok 1
  else Ok (Path_comparePath (oPPath n1) (oPPath n2)).

(** [Node_hasChild].  The result carries the return value, the index left
    in [*pulChildID] and the contents of the cell [*isDir], which holds
    [cell] on entry ([None] when the caller left it uninitialised). *)
Definition Node_hasChild (h : heap) (oNParent : addr) (oPPath : Path)
    (cell : option bool) : outcome (bool * nat * option bool) :=
  pn ← deref h oNParent;
  dirs ← array (oDDirChildren pn);
  '(i, ulChildID) ← DynArray_bsearch
      (λ e, Node_compareString h e (Path_getPathname oPPath)) dirs;
  if i : bool then Ok (true, ulChildID, Some true)
  else
    files ← array (oDFileChildren pn);
    '(j, ulChildID) ← DynArray_bsearch
        (λ e, Node_compareString h e (Path_getPathname oPPath)) files;
    if j : bool then Ok (true, ulChildID, Some false)
    else Ok (false, ulChildID, cell).

Definition path_of (nd : node) : Path := oPPath nd.

(** [Node_new].  The result is the status, the node left in [*poNResult]
    and the heap after the call.  [malloc] hands out an address that is
    not in use; on the failure paths the new struct is released again, so
    the heap is the one before the call. *)
Definition Node_new (al : allocs) (h : heap) (isDirec : bool) (oPPath : Path)
    (oNParent : option addr) (pvContents : option nat) (ulLength : nat)
    : outcome (status * option addr * heap) :=
  (* allocate space for a new node *)
  if negb (malloc_ok al) then Ok (MEMORY_ERROR, None, h)
  else
    let psNew : addr := fresh (dom h) in
    (* set the new node's path *)
    match Path_dup (dup_ok al) oPPath with
    | (SUCCESS, Some oPNewPath) =>
        (* validate the new node's parent *)
        checked ←
          match oNParent with
          | Some p =>
              pn ← deref h p;
              let oPParentPath := path_of pn in
              let ulParentDepth := Path_getDepth oPParentPath in
              let ulSharedDepth :=
                Path_getSharedPrefixDepth oPNewPath oPParentPath in
              if decide (ulSharedDepth < ulParentDepth)%nat
              then Ok (inl CONFLICTING_PATH)
              else if decide (Path_getDepth oPNewPath ≠ ulParentDepth + 1)%nat
              then Ok (inl NO_SUCH_PATH)
              else
                '(found, ulIndex, _) ← Node_hasChild h p oPPath None;
                if found : bool then Ok (inl ALREADY_IN_TREE)
                else Ok (inr ulIndex)
          | None =>
              if decide (Path_getDepth oPNewPath ≠ 1)%nat
              then Ok (inl NO_SUCH_PATH)
              else Ok (inr O)   (* ulIndex is not read without a parent *)
          end;
        match checked with
        | inl iStatus => Ok (iStatus, None, h)
        | inr ulIndex =>
            (* initialize the new node *)
            let dirs : option (list addr) := DynArray_new (dirs_ok al) in
            let files : option (list addr) := DynArray_new (files_ok al) in
            if bool_decide (dirs = None) || bool_decide (files = None)
            then Ok (MEMORY_ERROR, None, h)
            else
              (* link into the parent's children list *)
              linked ←
                match oNParent with
                | Some p => Node_addChild al h p psNew ulIndex isDirec
                | None => Ok (SUCCESS, h)
                end;
              let '(iStatus, h1) := linked in
              if decide (iStatus ≠ SUCCESS) then Ok (iStatus, None, h1)
              else
                let nd :=
                  if negb isDirec
                  then mkNode isDirec oPNewPath oNParent dirs files
                              pvContents ulLength
                  else mkNode isDirec oPNewPath oNParent dirs files None O in
                Ok (SUCCESS, Some psNew, <[psNew := nd]> h1)
        end
    | (iStatus, _) => Ok (iStatus, None, h)
    end.

(** The two loops of [Node_free]: while the array selected by [sel] is
    not empty, free its first element.  [free] is the recursive call. *)
Fixpoint free_children (free : heap → addr → outcome (heap * nat))
    (sel : node → option (list addr)) (fuel : nat) (h : heap) (oNNode : addr)
    (ulCount : nat) : outcome (heap * nat) :=
  nd ← deref h oNNode;
  arr ← array (sel nd);
  if decide (DynArray_getLength arr ≠ 0)%nat then
    match fuel with
    | O => Timeout
    | S fuel' =>
        child ← DynArray_get arr 0;
        '(h', k) ← free h child;
        free_children free sel fuel' h' oNNode (ulCount + k)%nat
    end
  else Ok (h, ulCount).

(** The first part of [Node_free]: the node is searched, with
    [Node_compare], in each of the parent's two arrays that is not [NULL],
    and removed where the search finds an entry. *)
Definition unlink_from_parent (h : heap) (oNNode : addr) : outcome heap :=
  nd ← deref h oNNode;
  match oNParent nd with
  | None => Ok h
  | Some p =>
      pn ← deref h p;
      h1 ←
        match oDDirChildren pn with
        | None => Ok h
        | Some arr =>
            '(found, ulIndex) ←
              DynArray_bsearch (λ e, Node_compare h e oNNode) arr;
            if found : bool then
              '(_, arr') ← DynArray_removeAt arr ulIndex;
              Ok (<[p := set_oDDirChildren (Some arr') pn]> h)
            else Ok h
        end;
      pn1 ← deref h1 p;
      match oDFileChildren pn1 with
      | None => Ok h1
      | Some arr =>
          '(found, ulIndex) ←
            DynArray_bsearch (λ e, Node_compare h1 e oNNode) arr;
          if found : bool then
            '(_, arr') ← DynArray_removeAt arr ulIndex;
            Ok (<[p := set_oDFileChildren (Some arr') pn1]> h1)
          else Ok h1
      end
  end.

(** [Node_free].  The result is the heap after the call and the count
    returned. *)
Fixpoint Node_free (fuel : nat) (h : heap) (oNNode : addr)
    : outcome (heap * nat) :=
  match fuel with
  | O => Timeout
  | S fuel' =>
      (* remove from parent's list *)
      h1 ← unlink_from_parent h oNNode;
      (* recursively remove children *)
      '(h2, ulCount) ←
        free_children (Node_free fuel') oDDirChildren fuel' h1 oNNode 0;
      nd2 ← deref h2 oNNode;
      let h3 := <[oNNode := set_oDDirChildren None nd2]> h2 in
      '(h4, ulCount) ←
        free_children (Node_free fuel') oDFileChildren fuel' h3 oNNode ulCount;
      (* free the arrays, the path and the struct node *)
      Ok (delete oNNode h4, S ulCount)
  end.

Definition Node_getNumDirChildren (h : heap) (oNParent : addr) : outcome nat :=
  pn ← deref h oNParent;
  arr ← array (oDDirChildren pn);
  Ok (DynArray_getLength arr).

Definition Node_getNumFileChildren (h : heap) (oNParent : addr) : outcome nat :=
  pn ← deref h oNParent;
  arr ← array (oDFileChildren pn);
  Ok (DynArray_getLength arr).

(** [Node_getChild]: the status and the node left in [*poNResult]. *)
Definition Node_getChild (h : heap) (childIsDir : bool) (oNParent : addr)
    (ulChildID : nat) : outcome (status * option addr) :=
  if childIsDir then
    len ← Node_getNumDirChildren h oNParent;
    if decide (len ≤ ulChildID)%nat then Ok (NO_SUCH_PATH, None)
    else
      pn ← deref h oNParent;
      arr ← array (oDDirChildren pn);
      c ← DynArray_get arr ulChildID;
      Ok (SUCCESS, Some c)
  else
    len ← Node_getNumFileChildren h oNParent;
    if decide (len ≤ ulChildID)%nat then Ok (NO_SUCH_PATH, None)
    else
      pn ← deref h oNParent;
      arr ← array (oDFileChildren pn);
      c ← DynArray_get arr ulChildID;
      Ok (SUCCESS, Some c).

Definition Node_getFileContents (h : heap) (oNNode : addr)
    : outcome (option nat) :=
  nd ← deref h oNNode;
  Ok (fileContent nd).

Definition Node_getFileSize (h : heap) (oNNode : addr) : outcome nat :=
  nd ← deref h oNNode;
  Ok (fileSize nd).

(** [Node_replaceFileContents]: the old contents and the heap after. *)
Definition Node_replaceFileContents (h : heap) (oNNode : addr)
    (pvNewContents : option nat) (ulNewLength : nat)
    : outcome (option nat * heap) :=
  nd ← deref h oNNode;
  let oldContents := fileContent nd in
  Ok (oldContents, <[oNNode := set_contents pvNewContents ulNewLength nd]> h).

Definition Node_isDir (h : heap) (oNNode : addr) : outcome bool :=
  nd ← deref h oNNode;
  Ok (isDir nd).

Definition Node_setDir (h : heap) (oNNode : addr) (isDirec : bool)
    : outcome heap :=
  nd ← deref h oNNode;
  Ok (<[oNNode := set_isDir isDirec nd]> h).

(** ** Concrete nodes and trees used in examples *)

(** Two nodes that differ in their flag only, and two that differ in
    flag and in path. *)
Definition file_b : node :=
  mkNode false ["root"; "b"]%string (Some 0%nat) (Some []) (Some []) None 0.
Definition dir_a : node :=
  mkNode true ["root"; "a"]%string (Some 0%nat) (Some []) (Some []) None 0.
Definition dir_b : node :=
  mkNode true ["root"; "b"]%string (Some 0%nat) (Some []) (Some []) None 0.
Definition dir_c : node :=
  mkNode true ["root"; "c"]%string (Some 0%nat) (Some []) (Some []) None 0.
Definition compare_heap : heap :=
  <[1%nat := file_b]> (<[2%nat := dir_a]> (<[3%nat := dir_b]> (<[4%nat := dir_c]> ∅))).


(** Allocators that refuse one request. *)
Definition no_malloc : allocs := mkAllocs false true true true true.
Definition no_dup : allocs := mkAllocs true false true true true.
Definition no_grow : allocs := mkAllocs true true true true false.

(** The heap left by a call of [Node_new] ([h] itself when the call does
    not return), and shorthands for creating directories and files when
    every allocation succeeds. *)
Definition heap_after (r : outcome (status * option addr * heap)) (h : heap)
    : heap :=
  match r with
  | Ok (_, _, h') => h'
  | _ => h
  end.

Definition mkdir (h : heap) (oPPath : Path) (oNParent : option addr) : heap :=
  heap_after (Node_new all_ok h true oPPath oNParent None 0) h.

Definition mkfile (h : heap) (oPPath : Path) (oNParent : option addr)
    (pvContents : option nat) (ulLength : nat) : heap :=
  heap_after (Node_new all_ok h false oPPath oNParent pvContents ulLength) h.

(** A root directory [root] at address 0 ... *)
Definition tree_root : heap := mkdir ∅ ["root"]%string None.
(** ... with the directory [root/a] (address 1) ... *)
Definition tree_a : heap := mkdir tree_root ["root"; "a"]%string (Some 0%nat).
(** ... then the directory [root/b] (address 2) ... *)
Definition tree_ab : heap := mkdir tree_a ["root"; "b"]%string (Some 0%nat).
(** ... then the directory [root/c] (address 3). *)
Definition tree_abc : heap := mkdir tree_ab ["root"; "c"]%string (Some 0%nat).

(** A root directory [other] at address 0. *)
Definition tree_other : heap := mkdir ∅ ["other"]%string None.

(** The path-depth mismatch of the specification: without a parent, the
    new path is not of depth 1; with a parent that is a true ancestor,
    the new path is not exactly one level below it. *)
Definition depth_mismatch (h : heap) (oPPath : Path) (oNParent : option addr)
    : Prop :=
  match oNParent with
  | None => Path_getDepth oPPath ≠ 1%nat
  | Some p =>
      ∃ pn, h !! p = Some pn ∧
        ¬ (Path_getSharedPrefixDepth oPPath (path_of pn)
             < Path_getDepth (path_of pn))%nat ∧
        Path_getDepth oPPath ≠ (Path_getDepth (path_of pn) + 1)%nat
  end.

(** An array is ordered for a key when, of two entries, the earlier is
    below the key if the later is, and the later is above the key if the
    earlier is; [f] compares an entry with the key. *)
Definition key_monotone {A : Type} (f : A → Z) (l : list A) : Prop :=
  ∀ i j x y, (i < j)%nat → l !! i = Some x → l !! j = Some y →
    (f y < 0 → f x < 0) ∧ (0 < f x → 0 < f y).

(** An array is strictly ordered for a key when an entry that comes
    before one not above the key is below the key. *)
Definition key_strict {A : Type} (f : A → Z) (l : list A) : Prop :=
  ∀ i j x y, (i < j)%nat → l !! i = Some x → l !! j = Some y →
    f y ≤ 0 → f x < 0.

(** The path of the node at an address. *)
Definition path_at (h : heap) (e : addr) : Path :=
  match h !! e with
  | Some nd => oPPath nd
  | None => []
  end.

(** A children array is sorted under the path ordering when no entry
    compares above a later one. *)
Definition sorted_by_path (h : heap) (l : list addr) : Prop :=
  ∀ i j x y, (i < j)%nat → l !! i = Some x → l !! j = Some y →
    Path_comparePath (path_at h x) (path_at h y) ≤ 0.

(** No entry of the array is the node of a given path. *)
Definition no_match (h : heap) (oPPath : Path) (l : list addr) : Prop :=
  ∀ c, c ∈ l → ∃ nc, h !! c = Some nc ∧
    Path_getPathname (path_of nc) ≠ Path_getPathname oPPath.

(** [no_match] as a test. *)
Definition no_matchb (h : heap) (oPPath : Path) (l : list addr) : bool :=
  forallb (λ c,
    match h !! c with
    | Some nc =>
        negb (String.eqb (Path_getPathname (path_of nc)) (Path_getPathname oPPath))
    | None => false
    end) l.

(** The tree [tree_a] with the files [root/f] (address 2) and [root/h]
    (address 3) added to the root. *)
Definition tree_files : heap :=
  mkfile (mkfile tree_a ["root"; "f"]%string (Some 0%nat) (Some 10%nat) 5)
         ["root"; "h"]%string (Some 0%nat) (Some 11%nat) 7.

(** ** Trees in the heap

    The shape of a well-formed subtree, used to state what [Node_free]
    does on trees whose arrays are sorted. *)

(** A tree of addresses: a node, its directory children and its file
    children. *)
Inductive ftree : Type :=
| FNode (a : addr) (dirs files : list ftree).

Definition root (t : ftree) : addr :=
  match t with FNode a _ _ => a end.

(** The addresses of the nodes of a tree, the root first. *)
Fixpoint addrs (t : ftree) : list addr :=
  match t with
  | FNode a ds fs => a :: mjoin (addrs <$> ds) ++ mjoin (addrs <$> fs)
  end.

(** Every entry of an array is an allocated node. *)
Definition allocated (h : heap) (l : list addr) : Prop :=
  ∀ x, x ∈ l → is_Some (h !! x).

(** An array is strictly sorted under the path ordering: every entry
    compares below the later ones, so no two entries have the same
    path. *)
Definition strictly_sorted (h : heap) (l : list addr) : Prop :=
  ∀ i j x y, (i < j)%nat → l !! i = Some x → l !! j = Some y →
    Path_comparePath (path_at h x) (path_at h y) < 0.

(** A children array ([NULL] while the node is freed) is in order. *)
Definition array_ok (h : heap) (o : option (list addr)) : Prop :=
  match o with
  | None => True
  | Some l => allocated h l ∧ strictly_sorted h l
  end.

(** [shape h parent t]: the heap holds the tree [t] below [parent].  Each
    node's arrays list the roots of its subtrees, each array is strictly
    sorted, no directory child has the path of a file child, and every
    child points back to its parent. *)
Inductive shape (h : heap) : option addr → ftree → Prop :=
| shape_node (parent : option addr) (a : addr) (nd : node)
    (ds fs : list ftree) :
    h !! a = Some nd →
    oNParent nd = parent →
    oDDirChildren nd = Some (root <$> ds) →
    oDFileChildren nd = Some (root <$> fs) →
    strictly_sorted h (root <$> ds) →
    strictly_sorted h (root <$> fs) →
    (∀ x y, x ∈ root <$> ds → y ∈ root <$> fs →
       Path_comparePath (path_at h x) (path_at h y) ≠ 0) →
    Forall (shape h (Some a)) ds →
    Forall (shape h (Some a)) fs →
    shape h parent (FNode a ds fs).

(** The entries of an array whose path is not the path of the node [a]. *)
Definition drop_path (h : heap) (a : addr) (l : list addr) : list addr :=
  filter (λ e, Path_comparePath (path_at h e) (path_at h a) ≠ 0) l.

(** A parent after the node [a] has been taken out of its arrays. *)
Definition unlinked (h : heap) (a : addr) (pn : node) : node :=
  set_oDFileChildren (drop_path h a <$> oDFileChildren pn)
    (set_oDDirChildren (drop_path h a <$> oDDirChildren pn) pn).

(** The heap after the node [a] has been taken out of the arrays of its
    parent. *)
Definition unlink_heap (h : heap) (a : addr) (parent : option addr) : heap :=
  match parent with
  | None => h
  | Some p =>
      match h !! p with
      | Some pn => <[p := unlinked h a pn]> h
      | None => h
      end
  end.

(** The heap without the nodes at the addresses [l]. *)
Definition remove_all (l : list addr) (h : heap) : heap :=
  foldr delete h l.

(** What [Node_free] asks of the parent of the node it frees: it is
    allocated, it is not part of the subtree, and each of its arrays that
    is not [NULL] is in order. *)
Definition parent_ok (h : heap) (parent : option addr) (t : ftree) : Prop :=
  match parent with
  | None => True
  | Some p =>
      (p ∉ addrs t) ∧
      (∃ pn, h !! p = Some pn ∧
         array_ok h (oDDirChildren pn) ∧ array_ok h (oDFileChildren pn))
  end.

(** The heap [g] has the nodes of [h], with the same paths. *)
Definition same_paths (h g : heap) : Prop :=
  ∀ e, path_of <$> g !! e = path_of <$> h !! e.

(** The array of a node that one loop of [Node_free] empties, and its
    update. *)
Definition sel (d : bool) (nd : node) : option (list addr) :=
  if d then oDDirChildren nd else oDFileChildren nd.

Definition set_sel (d : bool) (o : option (list addr)) (nd : node) : node :=
  if d then set_oDDirChildren o nd else set_oDFileChildren o nd.

(** [Node_free] of the node [a] returns the count [n] and leaves the heap
    [h'], whenever the model is given enough fuel. *)
Definition frees (h : heap) (a : addr) (h' : heap) (n : nat) : Prop :=
  ∃ fuel0, ∀ fuel, (fuel0 ≤ fuel)%nat → Node_free fuel h a = Ok (h', n).

(** [Node_free] is right on the tree [t], wherever it lies in a heap. *)
Definition free_ok (t : ftree) : Prop :=
  ∀ h parent, shape h parent t → NoDup (addrs t) → parent_ok h parent t →
    frees h (root t)
      (remove_all (addrs t) (unlink_heap h (root t) parent))
      (length (addrs t)).

(** The scenario of the specification: the root [root] (address 0), the
    directory [root/dir1] (address 1) and the file [root/dir1/file1]
    (address 2) with contents of 5 bytes. *)
Definition tree_scenario : heap :=
  mkfile (mkdir tree_root ["root"; "dir1"]%string (Some 0%nat))
         ["root"; "dir1"; "file1"]%string (Some 1%nat) (Some 42%nat) 5.

Definition scenario_tree : ftree :=
  FNode 0%nat [FNode 1%nat [] [FNode 2%nat [] []]] [].

(** ** The remaining accessors of [nodeFT.c] *)

(** [Node_getPath]. *)
Definition Node_getPath (h : heap) (oNNode : addr) : outcome Path :=
  nd ← deref h oNNode;
  Ok (path_of nd).

(** [Node_getParent]. *)
Definition Node_getParent (h : heap) (oNNode : addr) : outcome (option addr) :=
  nd ← deref h oNNode;
  Ok (oNParent nd).

(** [Node_getNumChildren]: the sum of the two lengths. *)
Definition Node_getNumChildren (h : heap) (oNParent : addr) : outcome nat :=
  d ← Node_getNumDirChildren h oNParent;
  f ← Node_getNumFileChildren h oNParent;
  Ok (d + f)%nat.

(** [Node_toString]: a fresh copy of the pathname, or [NULL] when
    [malloc] (whose answer is [malloc_ok]) fails. *)
Definition Node_toString (malloc_ok : bool) (h : heap) (oNNode : addr)
    : outcome (option string) :=
  p ← Node_getPath h oNNode;
  if negb malloc_ok then Ok None
  else
    p' ← Node_getPath h oNNode;
    Ok (Some (Path_getPathname p')).

(** The node that a successful [Node_new] leaves at the new address. *)
Definition new_node (isDirec : bool) (oPPath : Path) (oNParent : option addr)
    (pvContents : option nat) (ulLength : nat) : node :=
  mkNode isDirec oPPath oNParent (Some []) (Some [])
         (if isDirec then None else pvContents)
         (if isDirec then O else ulLength).

(** An entry of one of the two arrays of the node [pn] is a node of the
    path [oPPath]. *)
Definition has_child_of_path (h : heap) (pn : node) (oPPath : Path) : Prop :=
  ∃ d arr c nc,
    sel d pn = Some arr ∧ c ∈ arr ∧ h !! c = Some nc ∧
    Path_getPathname (path_of nc) = Path_getPathname oPPath.

(** The tree [tree_files] with the file [root/g] (address 4) added. *)
Definition tree_files_g : heap :=
  mkfile tree_files ["root"; "g"]%string (Some 0%nat) (Some 12%nat) 3.

(** The subtree of the file [root/g] in [tree_files_g], and the subtree
    of the directory [root/dir1] in [tree_scenario]. *)
Definition file_g_tree : ftree := FNode 4%nat [] [].
Definition dir1_tree : ftree := FNode 1%nat [] [FNode 2%nat [] []].
(** * Properties *)

(** ** Basic facts about outcomes *)

Lemma bind_Ok {A B : Type} (m : outcome A) (f : A → outcome B) (b : B) :
  m ≫= f = Ok b → ∃ a, m = Ok a ∧ f a = Ok b.
Proof. destruct m; simpl; intros H; try discriminate; eauto. Qed.

Lemma deref_Ok (h : heap) (n : addr) (nd : node) :
  deref h n = Ok nd ↔ h !! n = Some nd.
Proof. unfold deref. destruct (h !! n); split; congruence. Qed.

(** Inverts a hypothesis [m ≫= f = Ok b] into its two steps. *)
Tactic Notation "bind_inv" hyp(H) "as" simple_intropattern(a) ident(Ha) :=
  apply bind_Ok in H as (a & Ha & H).

(** ** Node_compare *)

(** Neither flag test of [Node_compare] can succeed: the result is always
    the path comparison. *)
Lemma Node_compare_is_path_compare (h : heap) (a b : addr) (na nb : node) :
  h !! a = Some na → h !! b = Some nb →
  Node_compare h a b = Ok (Path_comparePath (oPPath na) (oPPath nb)).
Proof.
  intros Ha Hb. unfold Node_compare, deref. rewrite Ha, Hb. simpl.
  destruct (isDir na); reflexivity.
Qed.

(** C2 (the code departs from the claim): [Node_compare] on nodes whose
    directory flags differ.  The file [root/b] compares greater than the
    directory [root/a], less than the directory [root/c] and equal to the
    directory [root/b]: the outcome follows the paths and the flags play
    no part in it. *)
Theorem Node_compare_flags_ignored :
  Node_compare compare_heap 1%nat 2%nat = Ok 1 ∧
  Node_compare compare_heap 1%nat 4%nat = Ok (-1) ∧
  Node_compare compare_heap 1%nat 3%nat = Ok 0 ∧
  Node_compare compare_heap 3%nat 1%nat = Ok 0.
Proof. repeat split; vm_compute; reflexivity. Qed.

(** ** Node_new: the failure paths *)

Lemma DynArray_addAt_inv {A : Type} (g : bool) (l : list A) (i : nat) (x : A)
    (ok : bool) (l' : list A) :
  DynArray_addAt g l i x = Ok (ok, l') →
  (i ≤ length l)%nat ∧ ok = g ∧
  l' = if g then take i l ++ x :: drop i l else l.
Proof.
  unfold DynArray_addAt. case_decide; [|discriminate].
  destruct g; intros [= <- <-]; auto.
Qed.

Lemma Node_addChild_status (al : allocs) (h h' : heap) (p c : addr) (i : nat)
    (d : bool) (st : status) :
  Node_addChild al h p c i d = Ok (st, h') →
  (st = SUCCESS ∧ grow_ok al = true) ∨ (st = MEMORY_ERROR ∧ h' = h).
Proof.
  unfold Node_addChild. intros H. bind_inv H as pn Hpn.
  destruct d; bind_inv H as arr Harr; bind_inv H as [ok arr'] Hadd;
    apply DynArray_addAt_inv in Hadd as (_ & -> & _);
    destruct (grow_ok al); injection H as <- <-; auto.
Qed.

(** The steps of [Node_new] after the two allocations, as a case
    analysis of a returned result. *)
Lemma Node_new_failure_heap (al : allocs) (h h' : heap) (isDirec : bool)
    (oPPath : Path) (oNParent : option addr) (pvContents : option nat)
    (ulLength : nat) (st : status) (res : option addr) :
  Node_new al h isDirec oPPath oNParent pvContents ulLength = Ok (st, res, h') →
  st ≠ SUCCESS → h' = h ∧ res = None.
Proof.
  unfold Node_new. intros H Hst.
  destruct (malloc_ok al); simpl in H; [|by injection H as <- <- <-].
  destruct (dup_ok al); simpl in H; [|by injection H as <- <- <-].
  bind_inv H as [iStatus|ulIndex] Hchk; [by injection H as <- <- <-|].
  destruct (dirs_ok al), (files_ok al); simpl in H;
    try (by injection H as <- <- <-).
  bind_inv H as [iStatus h1] Hlink.
  case_decide as Hs; injection H as <- <- <-; [|done].
  split; [|done].
  destruct oNParent as [p|]; [|by injection Hlink as <- <-].
  apply Node_addChild_status in Hlink as [[-> _]|[_ ->]]; done.
Qed.

(** C4: when [Node_new] returns a status other than [SUCCESS], the heap
    after the call is the heap before it; in particular the two children
    arrays of the parent are what they were. *)
Theorem Node_new_failure_no_mutation (al : allocs) (h h' : heap)
    (isDirec : bool) (oPPath : Path) (oNParent : option addr)
    (pvContents : option nat) (ulLength : nat) (st : status)
    (res : option addr) :
  Node_new al h isDirec oPPath oNParent pvContents ulLength = Ok (st, res, h') →
  st ≠ SUCCESS →
  h' = h ∧
  ∀ p, oNParent = Some p →
    oDDirChildren <$> h' !! p = oDDirChildren <$> h !! p ∧
    oDFileChildren <$> h' !! p = oDFileChildren <$> h !! p.
Proof.
  intros H Hst. apply Node_new_failure_heap in H as [-> _]; done.
Qed.

Lemma Node_new_failure_no_mutation_witness :
  Node_new no_grow tree_a false ["root"; "f"]%string (Some 0%nat) (Some 7%nat) 5
    = Ok (MEMORY_ERROR, None, tree_a) ∧
  MEMORY_ERROR ≠ SUCCESS ∧
  tree_a = tree_a ∧
  ∀ p, Some 0%nat = Some p →
    oDDirChildren <$> tree_a !! p = oDDirChildren <$> tree_a !! p ∧
    oDFileChildren <$> tree_a !! p = oDFileChildren <$> tree_a !! p.
Proof.
  split; [vm_compute; reflexivity|]. split; [discriminate|].
  apply (Node_new_failure_no_mutation no_grow tree_a tree_a false
           ["root"; "f"]%string (Some 0%nat) (Some 7%nat) 5 MEMORY_ERROR None).
  - vm_compute; reflexivity.
  - discriminate.
Defined.

(** C9: when [Node_new] returns a status other than [SUCCESS], the node
    left in the result cell is [NULL]. *)
Theorem Node_new_failure_result_null (al : allocs) (h h' : heap)
    (isDirec : bool) (oPPath : Path) (oNParent : option addr)
    (pvContents : option nat) (ulLength : nat) (st : status)
    (res : option addr) :
  Node_new al h isDirec oPPath oNParent pvContents ulLength = Ok (st, res, h') →
  st ≠ SUCCESS → res = None.
Proof.
  intros H Hst. apply Node_new_failure_heap in H as [_ ->]; done.
Qed.

Lemma Node_new_failure_result_null_witness :
  Node_new all_ok tree_a true ["root"; "a"]%string (Some 0%nat) None 0
    = Ok (ALREADY_IN_TREE, None, tree_a) ∧
  ALREADY_IN_TREE ≠ SUCCESS ∧
  (None : option addr) = None.
Proof.
  split; [vm_compute; reflexivity|]. split; [discriminate|].
  apply (Node_new_failure_result_null all_ok tree_a tree_a true
           ["root"; "a"]%string (Some 0%nat) None 0 ALREADY_IN_TREE None).
  - vm_compute; reflexivity.
  - discriminate.
Defined.

(** ** Node_new: the order of the checks *)

(** As C5 states it, the ancestry check would decide every call; a call
    whose first allocation fails returns [MEMORY_ERROR] before the parent
    is looked at.  Here the parent [other] shares no prefix with
    [root/b]. *)
Lemma Node_new_conflict_after_allocation :
  tree_other !! 0%nat = Some (mkNode true ["other"]%string None (Some []) (Some []) None 0) ∧
  (Path_getSharedPrefixDepth ["root"; "b"]%string ["other"]%string
     < Path_getDepth ["other"]%string)%nat ∧
  Node_new no_malloc tree_other true ["root"; "b"]%string (Some 0%nat) None 0
    = Ok (MEMORY_ERROR, None, tree_other) ∧
  Node_new no_malloc tree_other true ["root"; "b"]%string (Some 0%nat) None 0
    ≠ Ok (CONFLICTING_PATH, None, tree_other).
Proof.
  split; [vm_compute; reflexivity|].
  split; [vm_compute; lia|].
  split; [vm_compute; reflexivity|].
  vm_compute; discriminate.
Qed.

(** C5 (amended): when the struct and the copy of the path are allocated,
    a parent whose shared-prefix depth with the new path is less than its
    own depth makes [Node_new] return [CONFLICTING_PATH], with a [NULL]
    result and an unchanged heap -- whatever the depth of the new path
    and whatever the parent's children are, since those checks come
    later. *)
Theorem Node_new_conflicting_path (al : allocs) (h : heap) (isDirec : bool)
    (oPPath : Path) (p : addr) (pn : node) (pvContents : option nat)
    (ulLength : nat) :
  malloc_ok al = true → dup_ok al = true →
  h !! p = Some pn →
  (Path_getSharedPrefixDepth oPPath (path_of pn) < Path_getDepth (path_of pn))%nat →
  Node_new al h isDirec oPPath (Some p) pvContents ulLength
    = Ok (CONFLICTING_PATH, None, h).
Proof.
  intros Hm Hd Hp Hlt. unfold Node_new, deref.
  rewrite Hm, Hd, Hp. simpl. case_decide; [reflexivity|contradiction].
Qed.

Lemma Node_new_conflicting_path_witness :
  Node_new all_ok tree_other true ["root"; "b"]%string (Some 0%nat) None 0
    = Ok (CONFLICTING_PATH, None, tree_other).
Proof.
  apply (Node_new_conflicting_path all_ok tree_other true ["root"; "b"]%string
           0%nat (mkNode true ["other"]%string None (Some []) (Some []) None 0)).
  - reflexivity.
  - reflexivity.
  - vm_compute; reflexivity.
  - vm_compute; lia.
Defined.

(** As C6 states it, every depth mismatch would be answered with
    [NO_SUCH_PATH]; a call whose first allocation fails returns
    [MEMORY_ERROR] although the path [root/a] is offered as a root. *)
Lemma Node_new_mismatch_after_allocation :
  depth_mismatch ∅ ["root"; "a"]%string None ∧
  Node_new no_malloc ∅ true ["root"; "a"]%string None None 0
    = Ok (MEMORY_ERROR, None, ∅) ∧
  ¬ ∃ res h', Node_new no_malloc ∅ true ["root"; "a"]%string None None 0
                = Ok (NO_SUCH_PATH, res, h').
Proof.
  split; [simpl; lia|]. split; [reflexivity|].
  intros (res & h' & H). vm_compute in H. discriminate.
Qed.

(** C6 (amended): [Node_new] returns [NO_SUCH_PATH] exactly when the
    struct and the copy of the path are allocated and the depths do not
    match: there is no parent and the new path is not of depth 1, or the
    parent is a true ancestor and the new path is not one level below
    it. *)
Theorem Node_new_no_such_path_iff (al : allocs) (h : heap) (isDirec : bool)
    (oPPath : Path) (oNParent : option addr) (pvContents : option nat)
    (ulLength : nat) :
  (∃ res h', Node_new al h isDirec oPPath oNParent pvContents ulLength
               = Ok (NO_SUCH_PATH, res, h'))
  ↔ malloc_ok al = true ∧ dup_ok al = true ∧ depth_mismatch h oPPath oNParent.
Proof.
  unfold Node_new, depth_mismatch. split.
  - intros (res & h' & H).
    destruct (malloc_ok al); simpl in H; [|discriminate].
    destruct (dup_ok al); simpl in H; [|discriminate].
    split; [done|]. split; [done|].
    bind_inv H as chk Hchk. destruct oNParent as [p|].
    + bind_inv Hchk as pn Hpn. apply deref_Ok in Hpn. exists pn.
      split; [done|].
      case_decide; [by injection Hchk as <-|].
      case_decide; [done|].
      bind_inv Hchk as [[found ulIndex] c] Hhas.
      destruct found; injection Hchk as <-; [discriminate|].
      destruct (dirs_ok al), (files_ok al); simpl in H; try discriminate.
      bind_inv H as [iStatus h1] Hlink.
      apply Node_addChild_status in Hlink as [[-> _]|[-> _]];
        case_decide; discriminate.
    + case_decide; [done|]. injection Hchk as <-.
      destruct (dirs_ok al), (files_ok al); discriminate.
  - intros (-> & -> & Hm). simpl. destruct oNParent as [p|].
    + destruct Hm as (pn & Hp & Hs & Hd). unfold deref. rewrite Hp. simpl.
      case_decide; [contradiction|]. case_decide; [|contradiction].
      simpl. eauto.
    + case_decide; [|contradiction]. simpl. eauto.
Qed.

(** ** File contents *)

(** C7: [Node_replaceFileContents] returns the contents the node held,
    and leaves a heap in which [Node_getFileContents] and
    [Node_getFileSize] give the new contents and length, the node's other
    fields are what they were, and so is every other node. *)
Theorem Node_replaceFileContents_spec (h : heap) (oNNode : addr) (nd : node)
    (pvNewContents : option nat) (ulNewLength : nat) :
  h !! oNNode = Some nd →
  ∃ h', Node_replaceFileContents h oNNode pvNewContents ulNewLength
          = Ok (fileContent nd, h') ∧
    Node_getFileContents h oNNode = Ok (fileContent nd) ∧
    Node_getFileContents h' oNNode = Ok pvNewContents ∧
    Node_getFileSize h' oNNode = Ok ulNewLength ∧
    (∃ nd', h' !! oNNode = Some nd' ∧
       isDir nd' = isDir nd ∧ oPPath nd' = oPPath nd ∧
       oNParent nd' = oNParent nd ∧
       oDDirChildren nd' = oDDirChildren nd ∧
       oDFileChildren nd' = oDFileChildren nd) ∧
    (∀ q, q ≠ oNNode → h' !! q = h !! q).
Proof.
  intros Hn. unfold Node_replaceFileContents, Node_getFileContents,
    Node_getFileSize, deref. rewrite Hn. simpl.
  eexists. split; [reflexivity|]. rewrite lookup_insert_eq. simpl.
  repeat split; try reflexivity.
  - eexists. split; [reflexivity|]. simpl. done.
  - intros q Hq. by rewrite lookup_insert_ne.
Qed.

Lemma Node_replaceFileContents_spec_witness :
  ∃ h', Node_replaceFileContents compare_heap 1%nat (Some 9%nat) 4
          = Ok (fileContent file_b, h') ∧
    Node_getFileContents compare_heap 1%nat = Ok (fileContent file_b) ∧
    Node_getFileContents h' 1%nat = Ok (Some 9%nat) ∧
    Node_getFileSize h' 1%nat = Ok 4%nat ∧
    (∃ nd', h' !! 1%nat = Some nd' ∧
       isDir nd' = isDir file_b ∧ oPPath nd' = oPPath file_b ∧
       oNParent nd' = oNParent file_b ∧
       oDDirChildren nd' = oDDirChildren file_b ∧
       oDFileChildren nd' = oDFileChildren file_b) ∧
    (∀ q, q ≠ 1%nat → h' !! q = compare_heap !! q).
Proof.
  apply (Node_replaceFileContents_spec compare_heap 1%nat file_b (Some 9%nat) 4).
  vm_compute; reflexivity.
Defined.

(** ** Positional access *)

(** C8: [Node_getChild] answers an index at or beyond the length of the
    selected array with [NO_SUCH_PATH] and a [NULL] result, and any other
    index with [SUCCESS] and the node stored there. *)
Theorem Node_getChild_spec (h : heap) (childIsDir : bool) (oNParent : addr)
    (pn : node) (arr : list addr) (ulChildID : nat) :
  h !! oNParent = Some pn →
  (if childIsDir then oDDirChildren pn else oDFileChildren pn) = Some arr →
  ((length arr ≤ ulChildID)%nat →
     Node_getChild h childIsDir oNParent ulChildID = Ok (NO_SUCH_PATH, None)) ∧
  ((ulChildID < length arr)%nat →
     ∃ c, arr !! ulChildID = Some c ∧
       Node_getChild h childIsDir oNParent ulChildID = Ok (SUCCESS, Some c)).
Proof.
  intros Hp Harr.
  unfold Node_getChild, Node_getNumDirChildren, Node_getNumFileChildren,
    DynArray_getLength, DynArray_get, deref.
  rewrite Hp. simpl. destruct childIsDir; rewrite Harr; simpl; split.
  all: intros Hi; case_decide; try lia; try reflexivity.
  all: destruct (lookup_lt_is_Some_2 arr ulChildID Hi) as [c Hc].
  all: exists c; rewrite Hc; done.
Qed.

Lemma Node_getChild_spec_witness :
  ((length [3; 2; 1]%nat ≤ 1)%nat →
     Node_getChild tree_abc true 0%nat 1 = Ok (NO_SUCH_PATH, None)) ∧
  ((1 < length [3; 2; 1]%nat)%nat →
     ∃ c, [3; 2; 1]%nat !! 1%nat = Some c ∧
       Node_getChild tree_abc true 0%nat 1 = Ok (SUCCESS, Some c)).
Proof.
  apply (Node_getChild_spec tree_abc true 0%nat
           (mkNode true ["root"]%string None (Some [3; 2; 1]%nat) (Some []) None 0)).
  - vm_compute; reflexivity.
  - reflexivity.
Defined.

(** ** Binary search *)

Section bsearch_facts.
Context {A : Type} (pfCompare : A → outcome Z) (l : list A) (f : A → Z).

(** The comparator returns on every element of the array. *)
Hypothesis compare_total : ∀ x, x ∈ l → pfCompare x = Ok (f x).

Lemma bsearch_mid (ulLo ulHi : nat) :
  (ulLo < ulHi)%nat →
  (ulLo ≤ ulLo + (ulHi - ulLo) / 2 < ulHi)%nat.
Proof.
  intros H. split; [lia|].
  pose proof (Nat.Div0.div_lt_upper_bound (ulHi - ulLo) 2 (ulHi - ulLo)). lia.
Qed.

Lemma bsearch_loop_empty (fuel ulLo ulHi : nat) :
  (ulHi ≤ ulLo)%nat →
  bsearch_loop pfCompare l fuel ulLo ulHi = Ok (false, ulLo).
Proof. intros H. destruct fuel; simpl; case_decide; done. Qed.

(** One round of the loop on a range that is not empty. *)
Lemma bsearch_loop_step (fuel ulLo ulHi : nat) (x : A) :
  (ulLo < ulHi)%nat →
  l !! (ulLo + (ulHi - ulLo) / 2)%nat = Some x →
  bsearch_loop pfCompare l (S fuel) ulLo ulHi =
    if decide (f x = 0) then Ok (true, (ulLo + (ulHi - ulLo) / 2)%nat)
    else if decide (f x < 0)
         then bsearch_loop pfCompare l fuel (S (ulLo + (ulHi - ulLo) / 2)) ulHi
         else bsearch_loop pfCompare l fuel ulLo (ulLo + (ulHi - ulLo) / 2).
Proof.
  intros Hlt Hx. cbn [bsearch_loop]. case_decide; [lia|].
  unfold DynArray_get. rewrite Hx. cbn [mbind outcome_bind].
  rewrite (compare_total x) by (eapply list_elem_of_lookup_2; eauto).
  reflexivity.
Qed.

(** The search returns, with an index inside the range; a search that
    reports an entry found one on which the comparator gives 0. *)
Lemma bsearch_loop_returns (fuel ulLo ulHi : nat) :
  (ulLo ≤ ulHi)%nat → (ulHi ≤ length l)%nat → (ulHi - ulLo ≤ fuel)%nat →
  ∃ b i, bsearch_loop pfCompare l fuel ulLo ulHi = Ok (b, i) ∧
    (ulLo ≤ i ≤ ulHi)%nat ∧
    (b = true → ∃ x, l !! i = Some x ∧ f x = 0).
Proof.
  revert ulLo ulHi. induction fuel as [|fuel IH]; intros lo hi Hle Hhi Hfuel.
  { rewrite bsearch_loop_empty by lia.
    exists false, lo. split; [done|]. split; [lia|done]. }
  destruct (decide (hi ≤ lo)%nat).
  { rewrite bsearch_loop_empty by lia.
    exists false, lo. split; [done|]. split; [lia|done]. }
  pose proof (bsearch_mid lo hi ltac:(lia)) as Hmid.
  destruct (lookup_lt_is_Some_2 l (lo + (hi - lo) / 2)%nat ltac:(lia))
    as [x Hx].
  rewrite (bsearch_loop_step fuel lo hi x) by (done || lia).
  case_decide as H0.
  - eexists true, _. split; [done|]. split; [lia|]. eauto.
  - case_decide.
    + destruct (IH (S (lo + (hi - lo) / 2)) hi) as (b & i & -> & ? & ?);
        [lia..|].
      exists b, i. split; [done|]. split; [lia|done].
    + destruct (IH lo (lo + (hi - lo) / 2)%nat) as (b & i & -> & ? & ?);
        [lia..|].
      exists b, i. split; [done|]. split; [lia|done].
Qed.

(** On a sorted array a failed search returns the insertion position:
    the entries before it are below the key and the others above. *)
Lemma bsearch_loop_insertion (fuel ulLo ulHi : nat) :
  key_monotone f l →
  (ulLo ≤ ulHi)%nat → (ulHi ≤ length l)%nat →
  (∀ k x, (k < ulLo)%nat → l !! k = Some x → f x < 0) →
  (∀ k x, (ulHi ≤ k)%nat → l !! k = Some x → 0 < f x) →
  ∀ i, bsearch_loop pfCompare l fuel ulLo ulHi = Ok (false, i) →
  ∀ k x, l !! k = Some x →
    ((k < i)%nat → f x < 0) ∧ ((i ≤ k)%nat → 0 < f x).
Proof.
  intros Hs. revert ulLo ulHi.
  induction fuel as [|fuel IH]; intros lo hi Hle Hhi Hlo Hup i.
  { destruct (decide (hi ≤ lo)%nat).
    - rewrite bsearch_loop_empty by lia.
      intros [= <-] k x Hk; split; intros; [apply (Hlo k)|apply (Hup k)]; done || lia.
    - simpl. case_decide; [lia|discriminate]. }
  destruct (decide (hi ≤ lo)%nat).
  { rewrite bsearch_loop_empty by lia.
    intros [= <-] k x Hk; split; intros; [apply (Hlo k)|apply (Hup k)]; done || lia. }
  pose proof (bsearch_mid lo hi ltac:(lia)) as Hmid.
  destruct (lookup_lt_is_Some_2 l (lo + (hi - lo) / 2)%nat ltac:(lia))
    as [x Hx].
  rewrite (bsearch_loop_step fuel lo hi x) by (done || lia).
  case_decide as H0; [discriminate|]. case_decide as Hneg.
  - apply IH; [lia..| |done].
    intros k y Hk Hy.
    destruct (decide (k = lo + (hi - lo) / 2)%nat) as [->|].
    + congruence.
    + by apply (Hs k (lo + (hi - lo) / 2)%nat y x ltac:(lia) Hy Hx).
  - apply IH; [lia..|done|].
    intros k y Hk Hy.
    destruct (decide (k = lo + (hi - lo) / 2)%nat) as [->|].
    + assert (y = x) as -> by congruence. lia.
    + apply (Hs (lo + (hi - lo) / 2)%nat k x y ltac:(lia) Hx Hy). lia.
Qed.
End bsearch_facts.

(** ** The path ordering *)

Lemma ascii_compare_refl (c : ascii) : Ascii.compare c c = Eq.
Proof. unfold Ascii.compare. apply N.compare_refl. Qed.

Lemma string_compare_refl (s : string) : String.compare s s = Eq.
Proof. induction s as [|c s IH]; simpl; [done|]. by rewrite ascii_compare_refl. Qed.

Lemma string_compare_lt_trans (a b c : string) :
  String.compare a b = Lt → String.compare b c = Lt → String.compare a c = Lt.
Proof.
  revert b c. induction a as [|x a IH]; intros [|y b] [|z c]; simpl; try done.
  destruct (Ascii.compare x y) eqn:Hxy; try done;
    destruct (Ascii.compare y z) eqn:Hyz; try done.
  - apply Ascii.compare_eq_iff in Hxy as ->.
    apply Ascii.compare_eq_iff in Hyz as ->.
    rewrite ascii_compare_refl. apply IH.
  - apply Ascii.compare_eq_iff in Hxy as ->. by rewrite Hyz.
  - apply Ascii.compare_eq_iff in Hyz as <-. by rewrite Hxy.
  - unfold Ascii.compare in *. rewrite N.compare_lt_iff in *.
    assert (N_of_ascii x < N_of_ascii z)%N as H by lia.
    apply N.compare_lt_iff in H. by rewrite H.
Qed.

Lemma strcmp_refl (s : string) : strcmp s s = 0.
Proof. unfold strcmp. by rewrite string_compare_refl. Qed.

Lemma strcmp_eq (s t : string) : strcmp s t = 0 ↔ s = t.
Proof.
  split; [|intros ->; apply strcmp_refl].
  unfold strcmp. destruct (String.compare s t) eqn:H; try done.
  intros _. by apply String.compare_eq_iff.
Qed.

Lemma strcmp_antisym (s t : string) : strcmp t s = - strcmp s t.
Proof.
  unfold strcmp. rewrite (String.compare_antisym s t).
  by destruct (String.compare t s).
Qed.

Lemma strcmp_lt (s t : string) : strcmp s t < 0 ↔ String.compare s t = Lt.
Proof. unfold strcmp. destruct (String.compare s t); split; (done || lia). Qed.

Lemma strcmp_lt_trans (a b c : string) :
  strcmp a b < 0 → strcmp b c < 0 → strcmp a c < 0.
Proof. rewrite !strcmp_lt. apply string_compare_lt_trans. Qed.

Lemma strcmp_le_lt_trans (a b c : string) :
  strcmp a b ≤ 0 → strcmp b c < 0 → strcmp a c < 0.
Proof.
  intros Hab Hbc. destruct (decide (strcmp a b = 0)) as [He|].
  - apply strcmp_eq in He as ->. done.
  - apply (strcmp_lt_trans a b c); [lia|done].
Qed.

Lemma strcmp_le_trans (a b c : string) :
  strcmp a b ≤ 0 → strcmp b c ≤ 0 → strcmp a c ≤ 0.
Proof.
  intros Hab Hbc. destruct (decide (strcmp b c = 0)) as [He|].
  - apply strcmp_eq in He as <-. done.
  - pose proof (strcmp_le_lt_trans a b c Hab ltac:(lia)). lia.
Qed.

(** ** Node_hasChild *)

Section hasChild_facts.
Context (h : heap) (oPPath : Path).

Let key : string := Path_getPathname oPPath.
Let f (e : addr) : Z := Path_compareString (path_at h e) key.

Lemma Node_compareString_total (l : list addr) :
  no_match h oPPath l →
  ∀ x, x ∈ l → Node_compareString h x key = Ok (f x).
Proof.
  intros Hl x Hx. destruct (Hl x Hx) as (nc & Hnc & _).
  unfold Node_compareString, deref, f, path_at. by rewrite Hnc.
Qed.

Lemma no_match_key (l : list addr) (x : addr) :
  no_match h oPPath l → x ∈ l → f x ≠ 0.
Proof.
  intros Hl Hx. destruct (Hl x Hx) as (nc & Hnc & Hne).
  unfold f, path_at, Path_compareString. rewrite Hnc.
  by rewrite strcmp_eq.
Qed.

(** A search for a path that no entry has fails, at some index within
    the array. *)
Lemma bsearch_no_match (l : list addr) :
  no_match h oPPath l →
  ∃ i, DynArray_bsearch (λ e, Node_compareString h e key) l = Ok (false, i)
    ∧ (i ≤ length l)%nat.
Proof.
  intros Hl. unfold DynArray_bsearch.
  destruct (bsearch_loop_returns _ l f (Node_compareString_total l Hl)
              (length l) 0 (length l)) as (b & i & Hb & Hi & Hfound);
    [lia..|].
  destruct b.
  - destruct Hfound as (x & Hx & H0); [done|].
    apply list_elem_of_lookup_2 in Hx. by apply no_match_key in Hx.
  - exists i. split; [done|lia].
Qed.

(** An array sorted under the path ordering is ordered for every key. *)
Lemma sorted_by_path_key_monotone (l : list addr) :
  sorted_by_path h l → key_monotone f l.
Proof.
  intros Hs i j x y Hij Hx Hy.
  pose proof (Hs i j x y Hij Hx Hy) as Hxy.
  unfold f, Path_compareString, Path_comparePath in *. split.
  - intros Hy0. by eapply strcmp_le_lt_trans.
  - intros Hx0.
    destruct (Z_lt_le_dec 0 (strcmp (Path_getPathname (path_at h y)) key))
      as [|Hy0]; [done|].
    pose proof (strcmp_le_trans _ _ _ Hxy Hy0). lia.
Qed.
End hasChild_facts.

(** C10: for a path that no child in either array has, [Node_hasChild]
    returns false and leaves the cell [*isDir] as it found it; the index
    it leaves is the one the search of the file children produced, which
    on a sorted array of file children is the insertion position of the
    path among them. *)
Theorem Node_hasChild_absent (h : heap) (oNParent : addr) (pn : node)
    (dirs files : list addr) (oPPath : Path) (cell : option bool) :
  h !! oNParent = Some pn →
  oDDirChildren pn = Some dirs → oDFileChildren pn = Some files →
  no_match h oPPath dirs → no_match h oPPath files →
  ∃ i,
    DynArray_bsearch
      (λ e, Node_compareString h e (Path_getPathname oPPath)) files
      = Ok (false, i) ∧
    Node_hasChild h oNParent oPPath cell = Ok (false, i, cell) ∧
    (i ≤ length files)%nat ∧
    (sorted_by_path h files →
     ∀ k c, files !! k = Some c →
       ((k < i)%nat → Path_comparePath (path_at h c) oPPath < 0) ∧
       ((i ≤ k)%nat → 0 < Path_comparePath (path_at h c) oPPath)).
Proof.
  intros Hp Hdirs Hfiles Hnd Hnf.
  destruct (bsearch_no_match h oPPath dirs Hnd) as (i1 & Hi1 & _).
  destruct (bsearch_no_match h oPPath files Hnf) as (i & Hi & Hlen).
  exists i. split; [done|]. split; [|split; [done|]].
  - unfold Node_hasChild, deref. rewrite Hp. simpl.
    rewrite Hdirs. simpl. rewrite Hi1. simpl.
    rewrite Hfiles. simpl. rewrite Hi. reflexivity.
  - intros Hs k c Hc.
    apply (bsearch_loop_insertion _ files
             (λ e, Path_compareString (path_at h e) (Path_getPathname oPPath))
             (Node_compareString_total h oPPath files Hnf)
             (length files) 0 (length files));
      [by apply sorted_by_path_key_monotone|lia|lia| | |done|done].
    + intros k' x Hk'. lia.
    + intros k' x Hk' Hx. apply lookup_lt_Some in Hx. lia.
Qed.

Lemma no_matchb_sound (h : heap) (oPPath : Path) (l : list addr) :
  no_matchb h oPPath l = true → no_match h oPPath l.
Proof.
  unfold no_matchb, no_match. rewrite forallb_forall.
  intros H c Hc. apply list_elem_of_In in Hc. specialize (H c Hc).
  destruct (h !! c) as [nc|]; [|done]. exists nc. split; [done|].
  intros He. apply String.eqb_eq in He. rewrite He in H. done.
Qed.

Lemma Node_hasChild_absent_witness :
  ∃ i,
    DynArray_bsearch
      (λ e, Node_compareString tree_files e
              (Path_getPathname ["root"; "b"]%string)) [2; 3]%nat
      = Ok (false, i) ∧
    Node_hasChild tree_files 0%nat ["root"; "b"]%string (Some true)
      = Ok (false, i, Some true) ∧
    (i ≤ length [2; 3]%nat)%nat ∧
    (sorted_by_path tree_files [2; 3]%nat →
     ∀ k c, [2; 3]%nat !! k = Some c →
       ((k < i)%nat →
          Path_comparePath (path_at tree_files c) ["root"; "b"]%string < 0) ∧
       ((i ≤ k)%nat →
          0 < Path_comparePath (path_at tree_files c) ["root"; "b"]%string)).
Proof.
  apply (Node_hasChild_absent tree_files 0%nat
           (mkNode true ["root"]%string None (Some [1]%nat) (Some [2; 3]%nat)
                   None 0) [1]%nat [2; 3]%nat).
  - vm_compute; reflexivity.
  - reflexivity.
  - reflexivity.
  - apply no_matchb_sound. vm_compute; reflexivity.
  - apply no_matchb_sound. vm_compute; reflexivity.
Defined.

(** In [tree_files] the directory [root/a] is below [root/b] and both
    files are above it: the search of the directories ends at index 1,
    and [Node_hasChild] leaves the index 0 of the search of the files. *)
Lemma Node_hasChild_index_of_files :
  DynArray_bsearch
    (λ e, Node_compareString tree_files e
            (Path_getPathname ["root"; "b"]%string)) [1]%nat
    = Ok (false, 1%nat) ∧
  Node_hasChild tree_files 0%nat ["root"; "b"]%string None
    = Ok (false, 0%nat, None).
Proof. split; vm_compute; reflexivity. Qed.

(** ** Node_new: the position of a new directory *)

(** C1 (the code departs from the claim): the root of [tree_a] has the
    sorted directory children [root/a] and no file children.  Creating
    the directory [root/b] succeeds; the index [Node_new] uses is the one
    [Node_hasChild] computed against the empty array of file children,
    namely 0, so that [root/b] is put before [root/a] and the directory
    children are no longer sorted. *)
Theorem Node_new_directory_unsorted :
  oDDirChildren <$> tree_a !! 0%nat = Some (Some [1]%nat) ∧
  sorted_by_path tree_a [1]%nat ∧
  Node_hasChild tree_a 0%nat ["root"; "b"]%string None = Ok (false, 0%nat, None) ∧
  Node_new all_ok tree_a true ["root"; "b"]%string (Some 0%nat) None 0
    = Ok (SUCCESS, Some 2%nat, tree_ab) ∧
  oDDirChildren <$> tree_ab !! 0%nat = Some (Some [2; 1]%nat) ∧
  path_at tree_ab 2%nat = ["root"; "b"]%string ∧
  path_at tree_ab 1%nat = ["root"; "a"]%string ∧
  ¬ sorted_by_path tree_ab [2; 1]%nat.
Proof.
  split; [vm_compute; reflexivity|].
  split.
  { intros i j x y Hij Hx Hy. apply lookup_lt_Some in Hy as Hj.
    simpl in Hj. lia. }
  split; [vm_compute; reflexivity|].
  split; [vm_compute; reflexivity|].
  split; [vm_compute; reflexivity|].
  split; [vm_compute; reflexivity|].
  split; [vm_compute; reflexivity|].
  intros Hs. specialize (Hs 0%nat 1%nat 2%nat 1%nat).
  vm_compute in Hs. apply Hs; (reflexivity || constructor).
Qed.

(** Two more consequences of the index taken from the file children.
    In [tree_files] the directory [root/z] belongs after the two files,
    at an index beyond the end of the directory children, which the
    container does not accept.  In [tree_abc] the unsorted directory
    children hide [root/c] from the search, and a second node of that
    path is created. *)
Lemma Node_new_directory_index_out_of_range :
  Node_hasChild tree_files 0%nat ["root"; "z"]%string None
    = Ok (false, 2%nat, None) ∧
  oDDirChildren <$> tree_files !! 0%nat = Some (Some [1]%nat) ∧
  Node_new all_ok tree_files true ["root"; "z"]%string (Some 0%nat) None 0
    = Fault.
Proof. repeat split; vm_compute; reflexivity. Qed.

Lemma Node_new_duplicate_directory :
  path_at tree_abc 3%nat = ["root"; "c"]%string ∧
  ∃ h', Node_new all_ok tree_abc true ["root"; "c"]%string (Some 0%nat) None 0
          = Ok (SUCCESS, Some 4%nat, h') ∧
    oDDirChildren <$> h' !! 0%nat = Some (Some [4; 3; 2; 1]%nat) ∧
    path_at h' 4%nat = path_at h' 3%nat.
Proof.
  split; [vm_compute; reflexivity|].
  eexists. split; [vm_compute; reflexivity|].
  split; vm_compute; reflexivity.
Qed.

(** ** Node_free: fuel *)

(** A result other than [Timeout] does not depend on the fuel: more fuel
    gives the same result. *)
Lemma free_children_fuel (free free' : heap → addr → outcome (heap * nat))
    (sel : node → option (list addr)) (fuel fuel' : nat) (h : heap)
    (oNNode : addr) (ulCount : nat) :
  (∀ h n, free h n ≠ Timeout → free' h n = free h n) →
  (fuel ≤ fuel')%nat →
  free_children free sel fuel h oNNode ulCount ≠ Timeout →
  free_children free' sel fuel' h oNNode ulCount
    = free_children free sel fuel h oNNode ulCount.
Proof.
  intros Hfree. revert fuel' h ulCount.
  induction fuel as [|fuel IH]; intros fuel' h ulCount Hle.
  - destruct fuel'; simpl; destruct (deref h oNNode) as [nd| |]; simpl; try done;
      destruct (array (sel nd)) as [arr| |]; simpl; try done;
      case_decide; done.
  - destruct fuel' as [|fuel']; [lia|]. simpl.
    destruct (deref h oNNode) as [nd| |]; simpl; try done.
    destruct (array (sel nd)) as [arr| |]; simpl; try done.
    case_decide; [|done].
    destruct (DynArray_get arr 0) as [child| |]; simpl; try done.
    destruct (free h child) as [[h' k]| |] eqn:Hc; simpl.
    + rewrite Hfree, Hc by congruence. simpl. apply IH. lia.
    + rewrite Hfree, Hc by congruence. done.
    + done.
Qed.

Lemma Node_free_fuel (fuel fuel' : nat) (h : heap) (oNNode : addr) :
  (fuel ≤ fuel')%nat →
  Node_free fuel h oNNode ≠ Timeout →
  Node_free fuel' h oNNode = Node_free fuel h oNNode.
Proof.
  revert fuel' h oNNode.
  induction fuel as [|fuel IH]; intros fuel' h n Hle; [done|].
  destruct fuel' as [|fuel']; [lia|].
  assert (∀ h n, Node_free fuel h n ≠ Timeout →
                 Node_free fuel' h n = Node_free fuel h n) as Hrec.
  { intros. apply IH; [lia|done]. }
  simpl. destruct (unlink_from_parent h n) as [h1| |]; simpl; try done.
  destruct (free_children (Node_free fuel) oDDirChildren fuel h1 n 0)
    as [[h2 c]| |] eqn:Hd; simpl.
  - rewrite (free_children_fuel (Node_free fuel) (Node_free fuel') _ fuel fuel'),
      Hd by (done || lia || congruence).
    simpl. destruct (deref h2 n) as [nd2| |]; simpl; try done.
    destruct (free_children (Node_free fuel) oDFileChildren fuel _ n c)
      as [[h4 c']| |] eqn:Hf; simpl.
    + rewrite (free_children_fuel (Node_free fuel) (Node_free fuel') _ fuel fuel'),
        Hf by (done || lia || congruence).
      done.
    + rewrite (free_children_fuel (Node_free fuel) (Node_free fuel') _ fuel fuel'),
        Hf by (done || lia || congruence).
      done.
    + done.
  - rewrite (free_children_fuel (Node_free fuel) (Node_free fuel') _ fuel fuel'),
      Hd by (done || lia || congruence).
    done.
  - done.
Qed.

(** ** Node_free on the tree of three directories *)

(** C3 (the code departs from the claim): the tree [tree_abc] was built
    by [Node_new] alone and has four nodes; its root has the directory
    children [root/c], [root/b], [root/a] in this order.  [Node_free] of
    the root frees [root/c] first, whose search in the parent's array
    misses it, so that the entry stays and the next round of the loop
    reads the freed node: the call does not return 4. *)
Theorem Node_free_unsorted_children :
  size tree_abc = 4%nat ∧
  oDDirChildren <$> tree_abc !! 0%nat = Some (Some [3; 2; 1]%nat) ∧
  DynArray_bsearch (λ e, Node_compare tree_abc e 3%nat) [3; 2; 1]%nat
    = Ok (false, 3%nat) ∧
  Node_free 4 tree_abc 0%nat = Fault ∧
  ∀ fuel h', Node_free fuel tree_abc 0%nat ≠ Ok (h', 4%nat).
Proof.
  split; [vm_compute; reflexivity|].
  split; [vm_compute; reflexivity|].
  split; [vm_compute; reflexivity|].
  assert (Node_free 4 tree_abc 0%nat = Fault) as H4 by (vm_compute; reflexivity).
  split; [done|].
  intros fuel h'. destruct (decide (4 ≤ fuel)%nat) as [Hle|Hlt].
  - rewrite (Node_free_fuel 4 fuel) by (done || rewrite H4; done).
    rewrite H4. done.
  - assert (fuel = 0 ∨ fuel = 1 ∨ fuel = 2 ∨ fuel = 3)%nat
      as [-> | [-> | [-> | ->]]] by lia; vm_compute; done.
Qed.

(** ** Binary search in a strictly sorted array *)

Section bsearch_found.
Context {A : Type} (pfCompare : A → outcome Z) (l : list A) (f : A → Z).
Hypothesis compare_total : ∀ x, x ∈ l → pfCompare x = Ok (f x).

(** When one entry compares equal to the key, the ones before it below
    and the ones after it above, the search finds that entry. *)
Lemma bsearch_loop_found (k : nat) (x : A) :
  l !! k = Some x → f x = 0 →
  (∀ j y, (j < k)%nat → l !! j = Some y → f y < 0) →
  (∀ j y, (k < j)%nat → l !! j = Some y → 0 < f y) →
  ∀ fuel ulLo ulHi,
    (ulLo ≤ k < ulHi)%nat → (ulHi ≤ length l)%nat → (ulHi - ulLo ≤ fuel)%nat →
    bsearch_loop pfCompare l fuel ulLo ulHi = Ok (true, k).
Proof.
  intros Hk H0 Hbelow Habove.
  induction fuel as [|fuel IH]; intros lo hi Hr Hhi Hfuel; [lia|].
  pose proof (bsearch_mid lo hi ltac:(lia)) as Hmid.
  destruct (lookup_lt_is_Some_2 l (lo + (hi - lo) / 2)%nat ltac:(lia))
    as [y Hy].
  rewrite (bsearch_loop_step pfCompare l f compare_total fuel lo hi y)
    by (done || lia).
  destruct (Nat.lt_trichotomy (lo + (hi - lo) / 2) k) as [Hlt|[Heq|Hgt]].
  - pose proof (Hbelow _ y Hlt Hy).
    case_decide; [lia|]. case_decide; [|lia]. apply IH; lia.
  - rewrite Heq in Hy. assert (y = x) as -> by congruence.
    case_decide; [|done]. by rewrite Heq.
  - pose proof (Habove _ y Hgt Hy).
    case_decide; [lia|]. case_decide; [lia|]. apply IH; lia.
Qed.
End bsearch_found.

Lemma filter_all {A : Type} (P : A → Prop) `{!∀ x, Decision (P x)}
    (l : list A) :
  (∀ x, x ∈ l → P x) → filter P l = l.
Proof.
  induction l as [|y l IH]; intros Hall; [done|].
  rewrite filter_cons_True by (apply Hall; left).
  f_equal. apply IH. intros x Hx. apply Hall. by right.
Qed.

Lemma filter_delete_unique {A : Type} (P : A → Prop) `{!∀ x, Decision (P x)}
    (l : list A) (k : nat) (x : A) :
  l !! k = Some x → ¬ P x →
  (∀ j y, j ≠ k → l !! j = Some y → P y) →
  filter P l = delete k l.
Proof.
  revert k. induction l as [|y l IH]; intros k Hk Hx Hothers; [done|].
  destruct k as [|k]; simpl in *.
  - injection Hk as ->. rewrite filter_cons_False by done.
    apply filter_all. intros z Hz.
    apply list_elem_of_lookup_1 in Hz as [j Hj].
    by apply (Hothers (S j)).
  - rewrite filter_cons_True by (by apply (Hothers 0%nat)).
    f_equal. apply (IH k); [done..|].
    intros j z Hj Hz. apply (Hothers (S j)); [lia|done].
Qed.

(** In an array strictly ordered for the key, the search finds the entry
    that compares equal, if there is one; the array without the entries
    that compare equal is then the array without the entry found. *)
Lemma bsearch_strict {A : Type} (pfCompare : A → outcome Z) (l : list A)
    (f : A → Z) :
  (∀ x, x ∈ l → pfCompare x = Ok (f x)) →
  key_strict f l →
  (∃ k x, DynArray_bsearch pfCompare l = Ok (true, k) ∧ l !! k = Some x ∧
     filter (λ e, f e ≠ 0) l = delete k l) ∨
  (∃ i, DynArray_bsearch pfCompare l = Ok (false, i) ∧
     filter (λ e, f e ≠ 0) l = l).
Proof.
  intros Htotal Hs.
  destruct (decide (Exists (λ e, f e = 0) l)) as [Hex|Hno].
  - left. apply Exists_exists in Hex as (x & Hx & H0).
    apply list_elem_of_lookup_1 in Hx as [k Hk].
    assert (∀ j y, (j < k)%nat → l !! j = Some y → f y < 0) as Hbelow.
    { intros j y Hj Hy. apply (Hs j k y x Hj Hy Hk). lia. }
    assert (∀ j y, (k < j)%nat → l !! j = Some y → 0 < f y) as Habove.
    { intros j y Hj Hy. destruct (Z_lt_le_dec 0 (f y)) as [|Hy0]; [done|].
      pose proof (Hs k j x y Hj Hk Hy Hy0). lia. }
    exists k, x. split; [|split; [done|]].
    + apply lookup_lt_Some in Hk as Hlen.
      apply (bsearch_loop_found pfCompare l f Htotal k x); (done || lia).
    + apply (filter_delete_unique _ l k x); [done|by intros ?|].
      intros j y Hj Hy. simpl.
      destruct (Nat.lt_trichotomy j k) as [?|[?|?]]; [|lia|].
      * pose proof (Hbelow j y ltac:(done) Hy). lia.
      * pose proof (Habove j y ltac:(done) Hy). lia.
  - right.
    destruct (bsearch_loop_returns pfCompare l f Htotal (length l) 0 (length l))
      as (b & i & Hb & _ & Hfound); [lia..|].
    destruct b.
    + destruct Hfound as (x & Hx & H0); [done|]. exfalso. apply Hno.
      apply Exists_exists. exists x. split; [|done].
      by eapply list_elem_of_lookup_2.
    + exists i. split; [done|]. apply filter_all. intros x Hx H0.
      apply Hno, Exists_exists. eauto.
Qed.

(** ** Unlinking a node from its parent *)

Lemma strcmp_lt_le_trans (a b c : string) :
  strcmp a b < 0 → strcmp b c ≤ 0 → strcmp a c < 0.
Proof.
  intros Hab Hbc. destruct (decide (strcmp b c = 0)) as [He|].
  - apply strcmp_eq in He as <-. done.
  - apply (strcmp_lt_trans a b c); [done|lia].
Qed.

Lemma strictly_sorted_key_strict (h : heap) (a : addr) (l : list addr) :
  strictly_sorted h l →
  key_strict (λ e, Path_comparePath (path_at h e) (path_at h a)) l.
Proof.
  intros Hs i j x y Hij Hx Hy Hle. unfold Path_comparePath in *.
  eapply strcmp_lt_le_trans; [|done]. by apply (Hs i j).
Qed.

Lemma same_paths_path_at (h g : heap) (e : addr) :
  same_paths h g → path_at g e = path_at h e.
Proof.
  intros H. specialize (H e). unfold path_at, path_of in *.
  destruct (g !! e), (h !! e); simpl in H; congruence.
Qed.

Lemma same_paths_insert (h : heap) (p : addr) (pn pn' : node) :
  h !! p = Some pn → oPPath pn' = oPPath pn → same_paths h (<[p := pn']> h).
Proof.
  intros Hp Hpath e. destruct (decide (e = p)) as [->|].
  - rewrite lookup_insert_eq, Hp. simpl. by f_equal.
  - by rewrite lookup_insert_ne.
Qed.

Lemma Node_compare_same_paths (h g : heap) (a : addr) (l : list addr) :
  same_paths h g → is_Some (h !! a) → allocated h l →
  ∀ x, x ∈ l →
    Node_compare g x a = Ok (Path_comparePath (path_at h x) (path_at h a)).
Proof.
  intros Hg Ha Hl x Hx.
  assert (∀ e, is_Some (h !! e) → ∃ ne, g !! e = Some ne) as Hsome.
  { intros e [ne He]. specialize (Hg e). rewrite He in Hg.
    destruct (g !! e); [eauto|done]. }
  destruct (Hsome a Ha) as [na Hna].
  destruct (Hsome x (Hl x Hx)) as [nx Hnx].
  rewrite (Node_compare_is_path_compare g x a nx na Hnx Hna).
  rewrite <- !(same_paths_path_at h g) by done.
  unfold path_at. by rewrite Hnx, Hna.
Qed.

(** One of the two searches of [Node_free] and the removal that follows
    it, on an array in order: the array is left without the entries of
    the node's path. *)
Lemma unlink_array (h g : heap) (a : addr) (l : list addr) :
  same_paths h g → is_Some (h !! a) → allocated h l → strictly_sorted h l →
  (∃ k x, DynArray_bsearch (λ e, Node_compare g e a) l = Ok (true, k) ∧
     DynArray_removeAt l k = Ok (x, drop_path h a l)) ∨
  (∃ i, DynArray_bsearch (λ e, Node_compare g e a) l = Ok (false, i) ∧
     drop_path h a l = l).
Proof.
  intros Hg Ha Hl Hs.
  destruct (bsearch_strict (λ e, Node_compare g e a) l
              (λ e, Path_comparePath (path_at h e) (path_at h a))
              (Node_compare_same_paths h g a l Hg Ha Hl)
              (strictly_sorted_key_strict h a l Hs))
    as [(k & x & Hb & Hk & Hf)|(i & Hb & Hf)].
  - left. exists k, x. split; [done|].
    unfold DynArray_removeAt, drop_path. by rewrite Hk, Hf.
  - right. exists i. done.
Qed.

Lemma set_oDDirChildren_id (nd : node) (o : option (list addr)) :
  oDDirChildren nd = o → set_oDDirChildren o nd = nd.
Proof. intros <-. by destruct nd. Qed.

Lemma set_oDFileChildren_id (nd : node) (o : option (list addr)) :
  oDFileChildren nd = o → set_oDFileChildren o nd = nd.
Proof. intros <-. by destruct nd. Qed.

(** The first part of [Node_free], for a parent whose arrays are in
    order: both arrays lose the entries of the node's path. *)
Lemma unlink_from_parent_spec (h : heap) (a p : addr) (nd pn : node) :
  h !! a = Some nd → oNParent nd = Some p → h !! p = Some pn →
  array_ok h (oDDirChildren pn) → array_ok h (oDFileChildren pn) →
  unlink_from_parent h a = Ok (unlink_heap h a (Some p)).
Proof.
  intros Ha Hpar Hp Hdok Hfok.
  unfold unlink_from_parent, unlink_heap, deref.
  rewrite Ha. simpl. rewrite Hpar, Hp. simpl.
  set (pn1 := set_oDDirChildren (drop_path h a <$> oDDirChildren pn) pn).
  assert (h = <[p := pn]> h) as Hid by (by rewrite insert_id).
  assert (same_paths h h) as Hhh by done.
  assert (same_paths h (<[p := pn1]> h)) as Hh1.
  { apply (same_paths_insert h p pn); [done|]. by destruct pn. }
  assert (oDFileChildren pn1 = oDFileChildren pn) as Hf1 by done.
  assert (∀ h1, h1 = <[p := pn1]> h →
    (pn2 ← match h1 !! p with Some nd0 => Ok nd0 | None => Fault end;
     match oDFileChildren pn2 with
     | None => Ok h1
     | Some arr =>
         '(found, ulIndex) ←
           DynArray_bsearch (λ e, Node_compare h1 e a) arr;
         if found : bool then
           '(_, arr') ← DynArray_removeAt arr ulIndex;
           Ok (<[p := set_oDFileChildren (Some arr') pn2]> h1)
         else Ok h1
     end) = Ok (<[p := unlinked h a pn]> h)) as Hfiles.
  { intros h1 ->. rewrite lookup_insert_eq. simpl.
    unfold unlinked. fold pn1.
    destruct (oDFileChildren pn) as [fl|] eqn:Hfl; simpl.
    - destruct Hfok as [Hal Hss].
      destruct (unlink_array h (<[p := pn1]> h) a fl Hh1 ltac:(eauto) Hal Hss)
        as [(k & x & -> & Hr)|(i & -> & Hf)]; simpl.
      + rewrite Hr. simpl. by rewrite insert_insert_eq.
      + by rewrite Hf, set_oDFileChildren_id.
    - by rewrite set_oDFileChildren_id. }
  destruct (oDDirChildren pn) as [dl|] eqn:Hd; simpl.
  - destruct Hdok as [Hal Hss].
    destruct (unlink_array h h a dl Hhh ltac:(eauto) Hal Hss)
      as [(k & x & -> & Hr)|(i & -> & Hf)]; simpl.
    + rewrite Hr. simpl. by apply Hfiles.
    + apply Hfiles. subst pn1. simpl.
      rewrite Hf, set_oDDirChildren_id by done. done.
  - apply Hfiles. subst pn1. simpl.
    rewrite set_oDDirChildren_id by done. done.
Qed.

(** ** Trees in the heap *)

Lemma ftree_nested_ind (P : ftree → Prop) :
  (∀ a ds fs, Forall P ds → Forall P fs → P (FNode a ds fs)) →
  ∀ t, P t.
Proof.
  intros Hnode. fix IH 1. intros [a ds fs]. apply Hnode.
  - induction ds as [|t ds IHds]; constructor; [apply IH|apply IHds].
  - induction fs as [|t fs IHfs]; constructor; [apply IH|apply IHfs].
Qed.

Lemma root_in_addrs (t : ftree) : root t ∈ addrs t.
Proof. destruct t. simpl. left. Qed.

Lemma addrs_in_concat (ts : list ftree) (t : ftree) (q : addr) :
  t ∈ ts → q ∈ addrs t → q ∈ mjoin (addrs <$> ts).
Proof.
  intros Ht Hq. apply list_elem_of_join. exists (addrs t).
  split; [done|]. apply list_elem_of_fmap. eauto.
Qed.

Lemma roots_in_concat (ts : list ftree) (x : addr) :
  x ∈ root <$> ts → x ∈ mjoin (addrs <$> ts).
Proof.
  intros Hx. apply list_elem_of_fmap in Hx as (t & -> & Ht).
  eapply addrs_in_concat; [done|]. apply root_in_addrs.
Qed.

Lemma lookup_remove_all (l : list addr) (h : heap) (q : addr) :
  remove_all l h !! q = if decide (q ∈ l) then None else h !! q.
Proof.
  unfold remove_all. induction l as [|x l IH]; cbn [foldr].
  - destruct (decide (q ∈ [])) as [Hq|]; [by apply elem_of_nil in Hq|done].
  - rewrite lookup_delete, IH.
    destruct (decide (x = q)) as [->|Hne].
    + by rewrite decide_True by left.
    + destruct (decide (q ∈ l)) as [Hl|Hl].
      * by rewrite decide_True by (by right).
      * rewrite decide_False; [done|].
        intros [?|?]%elem_of_cons; [congruence|done].
Qed.

Lemma path_at_ext (h g : heap) (x : addr) :
  path_of <$> g !! x = path_of <$> h !! x → path_at g x = path_at h x.
Proof.
  unfold path_at, path_of. destruct (g !! x), (h !! x); simpl; congruence.
Qed.

Lemma strictly_sorted_ext (h g : heap) (l : list addr) :
  (∀ x, x ∈ l → path_of <$> g !! x = path_of <$> h !! x) →
  strictly_sorted h l → strictly_sorted g l.
Proof.
  intros Hext Hs i j x y Hij Hx Hy.
  rewrite !(path_at_ext h g) by (apply Hext; by eapply list_elem_of_lookup_2).
  by apply (Hs i j).
Qed.

Lemma allocated_ext (h g : heap) (l : list addr) :
  (∀ x, x ∈ l → path_of <$> g !! x = path_of <$> h !! x) →
  allocated h l → allocated g l.
Proof.
  intros Hext Hal x Hx. specialize (Hext x Hx).
  destruct (Hal x Hx) as [nx Hnx]. rewrite Hnx in Hext.
  destruct (g !! x); [eauto|done].
Qed.

Lemma shape_root (h : heap) (parent : option addr) (t : ftree) :
  shape h parent t → ∃ nd, h !! root t = Some nd ∧ oNParent nd = parent.
Proof. inversion 1; subst. simpl. eauto. Qed.

Lemma shape_allocated (h : heap) (parent : option addr) (ts : list ftree) :
  Forall (shape h parent) ts → allocated h (root <$> ts).
Proof.
  intros Hts x Hx. apply list_elem_of_fmap in Hx as (t & -> & Ht).
  rewrite Forall_forall in Hts.
  destruct (shape_root h parent t (Hts t Ht)) as (nd & -> & _). eauto.
Qed.

(** The shape of a tree depends on the heap at the tree's addresses
    only. *)
Lemma shape_ext (h g : heap) (t : ftree) :
  ∀ parent, (∀ q, q ∈ addrs t → g !! q = h !! q) →
    shape h parent t → shape g parent t.
Proof.
  induction t as [a ds fs IHds IHfs] using ftree_nested_ind.
  intros parent Hext Hshape. inversion Hshape; subst.
  assert (∀ x, x ∈ root <$> ds → g !! x = h !! x) as Hd.
  { intros x Hx. apply Hext. simpl. right. apply elem_of_app. left.
    by apply roots_in_concat. }
  assert (∀ x, x ∈ root <$> fs → g !! x = h !! x) as Hf.
  { intros x Hx. apply Hext. simpl. right. apply elem_of_app. right.
    by apply roots_in_concat. }
  econstructor; try done.
  - rewrite Hext; [done|]. simpl. left.
  - apply (strictly_sorted_ext h); [|done]. intros x Hx. by rewrite Hd.
  - apply (strictly_sorted_ext h); [|done]. intros x Hx. by rewrite Hf.
  - intros x y Hx Hy.
    rewrite (path_at_ext h g x), (path_at_ext h g y) by (f_equal; auto).
    auto.
  - rewrite Forall_forall in *. intros t Ht. apply IHds; [done| |auto].
    intros q Hq. apply Hext. simpl. right. apply elem_of_app. left.
    by eapply addrs_in_concat.
  - rewrite Forall_forall in *. intros t Ht. apply IHfs; [done| |auto].
    intros q Hq. apply Hext. simpl. right. apply elem_of_app. right.
    by eapply addrs_in_concat.
Qed.

Lemma Path_comparePath_refl (p : Path) : Path_comparePath p p = 0.
Proof. apply strcmp_refl. Qed.

Lemma Path_comparePath_antisym (p q : Path) :
  Path_comparePath q p = - Path_comparePath p q.
Proof. apply strcmp_antisym. Qed.

Lemma drop_path_head (h : heap) (x : addr) (l : list addr) :
  strictly_sorted h (x :: l) → drop_path h x (x :: l) = l.
Proof.
  intros Hs. unfold drop_path.
  rewrite filter_cons_False by (rewrite Path_comparePath_refl; auto).
  apply filter_all. intros y Hy.
  apply list_elem_of_lookup_1 in Hy as [j Hj].
  pose proof (Hs 0%nat (S j) x y ltac:(lia) eq_refl Hj).
  rewrite Path_comparePath_antisym. lia.
Qed.

Lemma drop_path_other (h : heap) (x : addr) (l : list addr) :
  (∀ y, y ∈ l → Path_comparePath (path_at h x) (path_at h y) ≠ 0) →
  drop_path h x l = l.
Proof.
  intros H. apply filter_all. intros y Hy.
  rewrite Path_comparePath_antisym. specialize (H y Hy). lia.
Qed.

Lemma strictly_sorted_tail (h : heap) (x : addr) (l : list addr) :
  strictly_sorted h (x :: l) → strictly_sorted h l.
Proof. intros Hs i j y z Hij Hy Hz. apply (Hs (S i) (S j)); (done || lia). Qed.

(** ** Node_free on well-formed trees *)

Lemma set_sel_id (d : bool) (nd : node) (o : option (list addr)) :
  sel d nd = o → set_sel d o nd = nd.
Proof.
  destruct d; simpl; [apply set_oDDirChildren_id|apply set_oDFileChildren_id].
Qed.

Lemma set_sel_set_sel (d : bool) (nd : node) (o o' : option (list addr)) :
  set_sel d o (set_sel d o' nd) = set_sel d o nd.
Proof. by destruct d. Qed.

Lemma sel_set_sel (d : bool) (nd : node) (o : option (list addr)) :
  sel d (set_sel d o nd) = o.
Proof. by destruct d. Qed.

Lemma sel_set_sel_other (d : bool) (nd : node) (o : option (list addr)) :
  sel (negb d) (set_sel d o nd) = sel (negb d) nd.
Proof. by destruct d. Qed.

Lemma array_ok_sel (h : heap) (nd : node) :
  (∀ d, array_ok h (sel d nd)) ↔
  array_ok h (oDDirChildren nd) ∧ array_ok h (oDFileChildren nd).
Proof.
  split.
  - intros H. split; [apply (H true)|apply (H false)].
  - intros [Hd Hf] [|]; done.
Qed.

(** A parent whose array [sel d] starts with the node [x], and whose
    other array has no entry of the path of [x], is left with the tail of
    the array when [x] is unlinked. *)
Lemma unlinked_head (h : heap) (d : bool) (x : addr) (l : list addr)
    (nd : node) :
  sel d nd = Some (x :: l) → strictly_sorted h (x :: l) →
  (∀ o y, sel (negb d) nd = Some o → y ∈ o →
     Path_comparePath (path_at h x) (path_at h y) ≠ 0) →
  unlinked h x nd = set_sel d (Some l) nd.
Proof.
  intros Hsel Hs Hother. unfold unlinked.
  assert (drop_path h x <$> sel d nd = Some l) as Hd.
  { rewrite Hsel. simpl. by rewrite drop_path_head. }
  assert (drop_path h x <$> sel (negb d) nd = sel (negb d) nd) as Ho.
  { destruct (sel (negb d) nd) as [o|] eqn:Ho; [|done]. simpl.
    rewrite drop_path_other; [done|]. intros y Hy. by apply (Hother o). }
  destruct d; simpl in *.
  - rewrite Hd, Ho. by rewrite set_oDFileChildren_id.
  - rewrite Hd, Ho. destruct nd; simpl in *. unfold set_oDFileChildren,
      set_oDDirChildren. simpl. done.
Qed.

Lemma free_children_done (free : heap → addr → outcome (heap * nat))
    (s : node → option (list addr)) (fuel : nat) (h : heap) (a : addr)
    (nd : node) (c : nat) :
  h !! a = Some nd → s nd = Some [] →
  free_children free s fuel h a c = Ok (h, c).
Proof.
  intros Ha Hs. destruct fuel; simpl; unfold deref; rewrite Ha; simpl;
    rewrite Hs; reflexivity.
Qed.

Lemma free_children_step (free : heap → addr → outcome (heap * nat))
    (s : node → option (list addr)) (fuel : nat) (h h' : heap) (a x : addr)
    (l : list addr) (nd : node) (c k : nat) :
  h !! a = Some nd → s nd = Some (x :: l) → free h x = Ok (h', k) →
  free_children free s (S fuel) h a c
    = free_children free s fuel h' a (c + k).
Proof.
  intros Ha Hs Hfree. simpl. unfold deref. rewrite Ha. simpl.
  rewrite Hs. simpl. by rewrite Hfree.
Qed.

(** The heap after the subtree [t] below the node [a] has been freed:
    outside [t] only the node [a] has changed, in its arrays. *)
Lemma after_child_path (h : heap) (a : addr) (nda nda' : node)
    (l : list addr) (q : addr) :
  h !! a = Some nda → path_of nda' = path_of nda → q ∉ l →
  path_of <$> remove_all l (<[a := nda']> h) !! q = path_of <$> h !! q.
Proof.
  intros Ha Hp Hq. rewrite lookup_remove_all, decide_False by done.
  destruct (decide (a = q)) as [->|].
  - rewrite lookup_insert_eq, Ha. simpl. by f_equal.
  - by rewrite lookup_insert_ne.
Qed.

Lemma after_child_lookup (h : heap) (a : addr) (nda' : node)
    (l : list addr) (q : addr) :
  q ≠ a → q ∉ l → remove_all l (<[a := nda']> h) !! q = h !! q.
Proof.
  intros Hne Hq. rewrite lookup_remove_all, decide_False by done.
  by rewrite lookup_insert_ne.
Qed.

Lemma path_of_set_sel (d : bool) (o : option (list addr)) (nd : node) :
  path_of (set_sel d o nd) = path_of nd.
Proof. by destruct d. Qed.

(** One loop of [Node_free]: the subtrees listed in the array [sel d] of
    the node [a] are freed one after the other, each call taking its
    node out of the array, and their nodes are counted. *)
Lemma free_children_spec (d : bool) (a : addr) (ts : list ftree) :
  Forall free_ok ts →
  ∀ (h : heap) (nda : node) (c : nat),
    h !! a = Some nda →
    sel d nda = Some (root <$> ts) →
    (∀ o, sel (negb d) nda = Some o →
       allocated h o ∧ strictly_sorted h o ∧
       (∀ y, y ∈ o → y ∉ mjoin (addrs <$> ts)) ∧
       (∀ x y, x ∈ root <$> ts → y ∈ o →
          Path_comparePath (path_at h x) (path_at h y) ≠ 0)) →
    strictly_sorted h (root <$> ts) →
    Forall (shape h (Some a)) ts →
    NoDup (mjoin (addrs <$> ts)) →
    a ∉ mjoin (addrs <$> ts) →
    ∃ fuel0, ∀ fuel k, (fuel0 ≤ fuel)%nat → (fuel0 ≤ k)%nat →
      free_children (Node_free fuel) (sel d) k h a c
        = Ok (remove_all (mjoin (addrs <$> ts))
                (<[a := set_sel d (Some []) nda]> h),
              (c + length (mjoin (addrs <$> ts)))%nat).
Proof.
  induction 1 as [|t ts Ht Hts IH];
    intros h nda c Ha Hsel Hother Hsorted Hshape Hnodup Hnotin.
  { exists 0%nat. intros fuel k _ _. simpl in *.
    rewrite (free_children_done _ _ _ h a nda) by done.
    rewrite set_sel_id, insert_id by done. f_equal. f_equal. lia. }
  rewrite fmap_cons in *. simpl in Hnodup, Hnotin.
  apply NoDup_app in Hnodup as (Hnd_t & Hdisj & Hnd_ts).
  apply not_elem_of_app in Hnotin as [Ha_t Ha_ts].
  apply Forall_cons in Hshape as [Hshape_t Hshape_ts].
  (* the first child *)
  set (nda' := set_sel d (Some (root <$> ts)) nda).
  set (h1 := remove_all (addrs t) (<[a := nda']> h)).
  assert (frees h (root t) h1 (length (addrs t))) as [ft Hft].
  { assert (unlink_heap h (root t) (Some a) = <[a := nda']> h) as Hunlink.
    { unfold unlink_heap. rewrite Ha. f_equal.
      apply (unlinked_head h d); [done..|].
      intros o y Ho Hy. destruct (Hother o Ho) as (_ & _ & _ & Hne).
      apply Hne; [left|done]. }
    unfold h1. rewrite <- Hunlink. apply Ht; [done..|].
    split; [done|]. exists nda. split; [done|]. apply array_ok_sel.
    intros d'. destruct (decide (d' = d)) as [->|Hd'].
    - rewrite Hsel. split; [|done].
      change (root t :: (root <$> ts)) with (root <$> t :: ts).
      apply (shape_allocated h (Some a)). by constructor.
    - assert (d' = negb d) as -> by (by destruct d, d').
      destruct (sel (negb d) nda) as [o|] eqn:Ho; [|done].
      destruct (Hother o eq_refl) as (? & ? & _). done. }
  (* the heap after the first child, outside its subtree *)
  assert (∀ q, q ∉ addrs t →
            path_of <$> h1 !! q = path_of <$> h !! q) as Hpaths.
  { intros q Hq. apply (after_child_path h a nda); [done| |done].
    apply path_of_set_sel. }
  assert (∀ q, q ∈ mjoin (addrs <$> ts) → h1 !! q = h !! q) as Hrest.
  { intros q Hq. apply after_child_lookup.
    - intros ->. done.
    - intros Hqt. by apply (Hdisj q). }
  assert (∀ x, x ∈ root <$> ts → x ∉ addrs t) as Hroots.
  { intros x Hx Hxt. apply (Hdisj x Hxt). by apply roots_in_concat. }
  (* the other children *)
  destruct (IH h1 nda' (c + length (addrs t))%nat) as [fts Hfts].
  - unfold h1. rewrite lookup_remove_all, decide_False by done.
    by rewrite lookup_insert_eq.
  - apply sel_set_sel.
  - intros o Ho. unfold nda' in Ho. rewrite sel_set_sel_other in Ho.
    destruct (Hother o Ho) as (Hal & Hso & Hout & Hne).
    assert (∀ y, y ∈ o → y ∉ addrs t) as Ho_t.
    { intros y Hy Hyt. apply (Hout y Hy). apply elem_of_app. by left. }
    split; [|split; [|split]].
    + apply (allocated_ext h); [|done]. intros y Hy. by apply Hpaths, Ho_t.
    + apply (strictly_sorted_ext h); [|done]. intros y Hy.
      by apply Hpaths, Ho_t.
    + intros y Hy Hyts. apply (Hout y Hy). apply elem_of_app. by right.
    + intros x y Hx Hy.
      rewrite (path_at_ext h h1 x), (path_at_ext h h1 y)
        by (apply Hpaths; auto).
      apply Hne; [by right|done].
  - apply (strictly_sorted_ext h).
    + intros x Hx. by apply Hpaths, Hroots.
    + by apply strictly_sorted_tail in Hsorted.
  - rewrite Forall_forall in *. intros t' Ht'.
    apply (shape_ext h); [|by apply Hshape_ts].
    intros q Hq. apply Hrest. by eapply addrs_in_concat.
  - done.
  - done.
  - exists (S (ft `max` fts)). intros fuel k Hfuel Hk.
    destruct k as [|k]; [lia|].
    rewrite (free_children_step _ _ k h h1 a (root t) (root <$> ts) nda c
               (length (addrs t))); [|done|done|apply Hft; lia].
    rewrite Hfts by lia. f_equal. f_equal.
    + apply map_eq. intros q. simpl. unfold h1, nda'.
      rewrite !lookup_remove_all, set_sel_set_sel.
      destruct (decide (q ∈ mjoin (addrs <$> ts))) as [Hq|Hq].
      * rewrite decide_True; [done|]. apply elem_of_app. by right.
      * destruct (decide (q ∈ addrs t)) as [Hqt|Hqt].
        -- rewrite decide_True by (apply elem_of_app; by left).
           assert (q ≠ a) by (by intros ->).
           rewrite lookup_insert_ne, lookup_remove_all, decide_True; done.
        -- rewrite decide_False
             by (intros [?|?]%elem_of_app; done).
           destruct (decide (q = a)) as [->|].
           ++ by rewrite !lookup_insert_eq.
           ++ rewrite !lookup_insert_ne by done.
              rewrite lookup_remove_all, decide_False by done.
              by rewrite lookup_insert_ne.
    + simpl. rewrite length_app. lia.
Qed.

(** [Node_free] on a well-formed subtree: the node is taken out of the
    arrays of its parent, every node of the subtree is freed and nothing
    else changes, and the count returned is the number of nodes of the
    subtree. *)
Theorem Node_free_tree (t : ftree) : free_ok t.
Proof.
  induction t as [a ds fs IHds IHfs] using ftree_nested_ind.
  intros h parent Hshape Hnodup Hparent.
  inversion Hshape as [? ? nd ? ? Ha Hpar Hdirs Hfiles Hsd Hsf Hdf Hshd Hshf];
    subst.
  simpl in Hnodup. simpl root. simpl addrs.
  set (D := mjoin (addrs <$> ds)) in *. set (F := mjoin (addrs <$> fs)) in *.
  apply NoDup_cons in Hnodup as [Ha_out Hnodup].
  apply not_elem_of_app in Ha_out as [Ha_D Ha_F].
  apply NoDup_app in Hnodup as (HndD & HDF & HndF).
  set (h1 := unlink_heap h a (oNParent nd)).
  (* the node is taken out of its parent's arrays *)
  assert (unlink_from_parent h a = Ok h1) as Hunlink.
  { unfold h1. destruct (oNParent nd) as [p|] eqn:Hp.
    - destruct Hparent as (_ & pn & Hpn & Hpd & Hpf).
      by apply (unlink_from_parent_spec h a p nd pn).
    - unfold unlink_from_parent, deref. rewrite Ha. simpl. by rewrite Hp. }
  assert (∀ q, q ∈ a :: D ++ F → h1 !! q = h !! q) as Hsame.
  { intros q Hq. unfold h1, unlink_heap.
    destruct (oNParent nd) as [p|]; [|done].
    destruct Hparent as (Hp & pn & Hpn & _). rewrite Hpn.
    rewrite lookup_insert_ne; [done|]. intros ->. done. }
  assert (∀ q, q ∈ a :: D ++ F →
            path_of <$> h1 !! q = path_of <$> h !! q) as Hsame_path.
  { intros q Hq. by rewrite Hsame. }
  assert (∀ x, x ∈ root <$> ds → x ∈ a :: D ++ F) as HinD.
  { intros x Hx. right. apply elem_of_app. left. by apply roots_in_concat. }
  assert (∀ x, x ∈ root <$> fs → x ∈ a :: D ++ F) as HinF.
  { intros x Hx. right. apply elem_of_app. right. by apply roots_in_concat. }
  assert (h1 !! a = Some nd) as Ha1 by (rewrite Hsame; [done|left]).
  (* the loop over the directory children *)
  destruct (free_children_spec true a ds IHds h1 nd 0) as [fd Hfd];
    try done.
  { intros o Ho. simpl in Ho. rewrite Hfiles in Ho. injection Ho as <-.
    split; [|split; [|split]].
    - apply (allocated_ext h); [auto|]. by apply (shape_allocated h (Some a)).
    - apply (strictly_sorted_ext h); [auto|done].
    - intros y Hy HyD. apply (HDF y HyD). by apply roots_in_concat.
    - intros x y Hx Hy.
      rewrite (path_at_ext h h1 x), (path_at_ext h h1 y) by auto. auto. }
  { apply (strictly_sorted_ext h); [auto|done]. }
  { rewrite Forall_forall in *. intros t Ht.
    apply (shape_ext h); [|by apply Hshd].
    intros q Hq. apply Hsame. right. apply elem_of_app. left.
    by eapply addrs_in_concat. }
  fold D in Hfd.
  set (h2 := remove_all D (<[a := set_sel true (Some []) nd]> h1)) in *.
  set (nd3 := set_oDDirChildren None nd).
  set (h3 := <[a := nd3]> h2).
  assert (h2 !! a = Some (set_oDDirChildren (Some []) nd)) as Ha2.
  { unfold h2. rewrite lookup_remove_all, decide_False by done.
    by rewrite lookup_insert_eq. }
  assert (∀ q, q ∈ F → h3 !! q = h !! q) as Hsame3.
  { intros q Hq. unfold h3, h2.
    assert (q ≠ a) by (by intros ->).
    rewrite lookup_insert_ne, lookup_remove_all by done.
    rewrite decide_False by (intros HqD; by apply (HDF q)).
    rewrite lookup_insert_ne by done. apply Hsame. right.
    apply elem_of_app. by right. }
  (* the loop over the file children *)
  destruct (free_children_spec false a fs IHfs h3 nd3 (0 + length D)%nat)
    as [ff Hff]; try done.
  { unfold h3. by rewrite lookup_insert_eq. }
  { apply (strictly_sorted_ext h); [|done].
    intros x Hx. rewrite Hsame3; [done|]. by apply roots_in_concat. }
  { rewrite Forall_forall in *. intros t Ht.
    apply (shape_ext h); [|by apply Hshf].
    intros q Hq. apply Hsame3. by eapply addrs_in_concat. }
  fold F in Hff.
  (* the whole call *)
  exists (S (fd `max` ff)). intros fuel Hfuel.
  destruct fuel as [|fuel]; [lia|]. simpl. rewrite Hunlink. simpl.
  change (free_children (Node_free fuel) oDDirChildren fuel h1 a 0)
    with (free_children (Node_free fuel) (sel true) fuel h1 a 0).
  rewrite Hfd by lia. simpl. unfold deref. rewrite Ha2. simpl.
  change (free_children (Node_free fuel) oDFileChildren fuel
            (<[a := set_oDDirChildren None (set_oDDirChildren (Some []) nd)]> h2)
            a (0 + length D))
    with (free_children (Node_free fuel) (sel false) fuel h3 a (0 + length D)).
  rewrite Hff by lia. simpl. f_equal. f_equal.
  - apply map_eq. intros q. rewrite !lookup_delete, !lookup_remove_all.
    destruct (decide (a = q)) as [<-|Hqa]; [done|].
    destruct (decide (q ∈ F)) as [HqF|HqF].
    { rewrite decide_True; [done|]. apply elem_of_app. by right. }
    unfold h3, h2. rewrite !lookup_insert_ne, lookup_remove_all by done.
    destruct (decide (q ∈ D)) as [HqD|HqD].
    { rewrite decide_True; [done|]. apply elem_of_app. by left. }
    rewrite lookup_insert_ne by done.
    rewrite decide_False; [done|].
    intros [?|?]%elem_of_app; done.
  - rewrite length_app. lia.
Qed.

Lemma strictly_sorted_nil (h : heap) : strictly_sorted h [].
Proof. intros i j x y _ Hx. by rewrite lookup_nil in Hx. Qed.

Lemma strictly_sorted_singleton (h : heap) (x : addr) : strictly_sorted h [x].
Proof.
  intros i j y z Hij Hy Hz. apply lookup_lt_Some in Hz. simpl in Hz. lia.
Qed.

Lemma shape_leaf (h : heap) (parent : option addr) (a : addr) (nd : node) :
  h !! a = Some nd → oNParent nd = parent →
  oDDirChildren nd = Some [] → oDFileChildren nd = Some [] →
  shape h parent (FNode a [] []).
Proof.
  intros. econstructor; try done; try apply strictly_sorted_nil.
  intros x y Hx. by apply elem_of_nil in Hx.
Qed.

Lemma scenario_shape : shape tree_scenario None scenario_tree.
Proof.
  unfold scenario_tree.
  eapply (shape_node _ None 0%nat _ [_] []);
    [vm_compute; reflexivity|reflexivity..| | | | |];
    [apply strictly_sorted_singleton|apply strictly_sorted_nil| | |by constructor].
  { intros x y _ Hy. by apply elem_of_nil in Hy. }
  constructor; [|constructor].
  eapply (shape_node _ (Some 0%nat) 1%nat _ [] [_]);
    [vm_compute; reflexivity|reflexivity..| | | | |];
    [apply strictly_sorted_nil|apply strictly_sorted_singleton| |by constructor|].
  { intros x y Hx. by apply elem_of_nil in Hx. }
  constructor; [|constructor].
  eapply shape_leaf; [vm_compute; reflexivity|reflexivity..].
Qed.

(** On the scenario of the specification [Node_free] of the root returns
    3 and leaves an empty heap. *)
Lemma Node_free_scenario :
  frees tree_scenario 0%nat ∅ 3 ∧ Node_free 4 tree_scenario 0%nat = Ok (∅, 3%nat).
Proof.
  split; [|vm_compute; reflexivity].
  assert (NoDup (addrs scenario_tree)) as Hnd.
  { apply (bool_decide_unpack _). vm_compute. exact I. }
  pose proof (Node_free_tree scenario_tree tree_scenario None scenario_shape
                Hnd I) as H.
  assert (remove_all (addrs scenario_tree)
            (unlink_heap tree_scenario (root scenario_tree) None) = ∅) as Heq
    by (vm_compute; reflexivity).
  by rewrite Heq in H.
Qed.

(** ** Node_new: the position of a new file *)

Lemma lookup_insert_at {A : Type} (l : list A) (i m : nat) (x : A) :
  (i ≤ length l)%nat →
  (take i l ++ x :: drop i l) !! m =
    if decide (m < i)%nat then l !! m
    else if decide (m = i) then Some x else l !! (m - 1)%nat.
Proof.
  intros Hi. case_decide as Hm.
  - rewrite lookup_app_l by (rewrite length_take; lia).
    by rewrite lookup_take_lt.
  - rewrite lookup_app_r by (rewrite length_take; lia).
    rewrite length_take, Nat.min_l by lia.
    case_decide as He.
    + subst. by rewrite Nat.sub_diag.
    + destruct (m - i)%nat as [|k] eqn:Hk; [lia|]. simpl.
      rewrite lookup_drop. f_equal. lia.
Qed.

(** Inserting an entry at its insertion position keeps an array sorted. *)
Lemma sorted_by_path_insert (h g : heap) (l : list addr) (i : nat) (a : addr) :
  (i ≤ length l)%nat →
  sorted_by_path h l →
  (∀ c, c ∈ l → path_at g c = path_at h c) →
  (∀ k c, l !! k = Some c →
     ((k < i)%nat → Path_comparePath (path_at h c) (path_at g a) < 0) ∧
     ((i ≤ k)%nat → 0 < Path_comparePath (path_at h c) (path_at g a))) →
  sorted_by_path g (take i l ++ a :: drop i l).
Proof.
  intros Hi Hs Hpaths Hpos m n x y Hmn.
  rewrite !lookup_insert_at by done. intros Hx Hy.
  assert (∀ k c, l !! k = Some c → path_at g c = path_at h c) as Hp.
  { intros k c Hc. apply Hpaths. by eapply list_elem_of_lookup_2. }
  repeat case_decide; simplify_eq; try lia.
  - rewrite (Hp _ _ Hx), (Hp _ _ Hy). by apply (Hs m n).
  - rewrite (Hp _ _ Hx). destruct (Hpos _ _ Hx) as [Hlt _]. lia.
  - rewrite (Hp _ _ Hx), (Hp _ _ Hy). apply (Hs m (n - 1)%nat); (done || lia).
  - rewrite (Hp _ _ Hy). destruct (Hpos _ _ Hy) as [_ Hgt].
    rewrite Path_comparePath_antisym. lia.
  - rewrite (Hp _ _ Hx), (Hp _ _ Hy).
    apply (Hs (m - 1)%nat (n - 1)%nat); (done || lia).
Qed.

Lemma Node_compareString_allocated (h : heap) (key : string) (l : list addr) :
  allocated h l →
  ∀ x, x ∈ l →
    Node_compareString h x key = Ok (Path_compareString (path_at h x) key).
Proof.
  intros Hl x Hx. destruct (Hl x Hx) as [nx Hnx].
  unfold Node_compareString, deref, path_at. by rewrite Hnx.
Qed.

(** What a failed [Node_hasChild] has computed. *)
Lemma Node_hasChild_false (h : heap) (p : addr) (pn : node)
    (dl fl : list addr) (oPPath : Path) (cell cell' : option bool) (i : nat) :
  h !! p = Some pn →
  oDDirChildren pn = Some dl → oDFileChildren pn = Some fl →
  Node_hasChild h p oPPath cell = Ok (false, i, cell') →
  DynArray_bsearch
    (λ e, Node_compareString h e (Path_getPathname oPPath)) fl = Ok (false, i).
Proof.
  intros Hp Hd Hf. unfold Node_hasChild, deref. rewrite Hp. simpl.
  rewrite Hd. simpl. intros H.
  bind_inv H as [found1 i1] Hdirs. destruct found1; [discriminate|].
  rewrite Hf in H. simpl in H.
  bind_inv H as [found2 i2] Hfiles. destruct found2; [discriminate|].
  by injection H as <- _.
Qed.

(** X20: [Node_new] of a file under a parent whose file children are
    sorted: the new node is put into the array of file children at its
    sorted position, the array stays sorted, and the directory children
    are untouched. *)
Theorem Node_new_file_sorted (al : allocs) (h h' : heap) (oPPath : Path)
    (p a : addr) (pn : node) (dl fl : list addr) (pvContents : option nat)
    (ulLength : nat) :
  h !! p = Some pn →
  oDDirChildren pn = Some dl → oDFileChildren pn = Some fl →
  allocated h fl → sorted_by_path h fl →
  Node_new al h false oPPath (Some p) pvContents ulLength
    = Ok (SUCCESS, Some a, h') →
  ∃ i, (i ≤ length fl)%nat ∧
    h' !! p = Some (set_oDFileChildren (Some (take i fl ++ a :: drop i fl)) pn) ∧
    h' !! a = Some (mkNode false oPPath (Some p) (Some []) (Some [])
                            pvContents ulLength) ∧
    sorted_by_path h' (take i fl ++ a :: drop i fl).
Proof.
  intros Hp Hd Hf Hal Hs. unfold Node_new.
  destruct (malloc_ok al); simpl; [|discriminate].
  destruct (dup_ok al); simpl; [|discriminate].
  unfold deref at 1. rewrite Hp. simpl.
  case_decide as Hshared; simpl; [discriminate|].
  case_decide as Hdepth; simpl; [discriminate|].
  intros H. bind_inv H as chk Hchk.
  bind_inv Hchk as [[found i] cell'] Hhas.
  destruct found; injection Hchk as <-; [discriminate|].
  destruct (dirs_ok al), (files_ok al); simpl in H; try discriminate.
  bind_inv H as [st h1] Hadd. case_decide as Hst; [discriminate|].
  injection H as <- <-.
  unfold Node_addChild, deref in Hadd. rewrite Hp in Hadd. simpl in Hadd.
  rewrite Hf in Hadd. simpl in Hadd.
  bind_inv Hadd as [ok arr'] Hat.
  apply DynArray_addAt_inv in Hat as (Hi & -> & ->).
  destruct (grow_ok al); injection Hadd as <- <-;
    [|discriminate Hst].
  apply (Node_hasChild_false h p pn dl fl) in Hhas; try done.
  assert (h !! fresh (dom h) = None) as Hfresh.
  { apply not_elem_of_dom, is_fresh. }
  assert (fresh (dom h) ≠ p) as Hne by congruence.
  exists i. split; [done|]. split; [|split].
  - rewrite lookup_insert_ne, lookup_insert_eq by done. done.
  - by rewrite lookup_insert_eq.
  - apply (sorted_by_path_insert h); [done..| |].
    + intros c Hc. apply path_at_ext.
      destruct (Hal c Hc) as [nc Hnc].
      rewrite lookup_insert_ne by congruence.
      destruct (decide (c = p)) as [->|].
      * rewrite lookup_insert_eq, Hp. done.
      * by rewrite lookup_insert_ne.
    + assert (path_at (<[fresh (dom h) := mkNode false oPPath (Some p)
                (Some []) (Some []) pvContents ulLength]>
                (<[p := set_oDFileChildren
                     (Some (take i fl ++ fresh (dom h) :: drop i fl)) pn]> h))
                (fresh (dom h)) = oPPath) as ->.
      { unfold path_at. by rewrite lookup_insert_eq. }
      apply (bsearch_loop_insertion _ fl
               (λ e, Path_compareString (path_at h e) (Path_getPathname oPPath))
               (Node_compareString_allocated h _ fl Hal)
               (length fl) 0 (length fl));
        [ |lia|lia| | |done].
      * by apply sorted_by_path_key_monotone.
      * intros k' x Hk'. lia.
      * intros k' x Hk' Hx. apply lookup_lt_Some in Hx. lia.
Qed.

(** ** Node_free: the arrays of the parent stay sorted *)

Lemma strictly_sorted_cons (h : heap) (x : addr) (l : list addr) :
  strictly_sorted h (x :: l) ↔
  (∀ y, y ∈ l → Path_comparePath (path_at h x) (path_at h y) < 0) ∧
  strictly_sorted h l.
Proof.
  split.
  - intros Hs. split; [|by apply strictly_sorted_tail in Hs].
    intros y Hy. apply list_elem_of_lookup_1 in Hy as [j Hj].
    by apply (Hs 0%nat (S j)); [lia| |].
  - intros [Hx Hl] i j y z Hij Hy Hz.
    destruct j as [|j]; [lia|]. simpl in Hz.
    destruct i as [|i]; simpl in Hy.
    + injection Hy as <-. apply Hx. by eapply list_elem_of_lookup_2.
    + apply (Hl i j); (done || lia).
Qed.

Lemma strictly_sorted_filter (h : heap) (P : addr → Prop)
    `{!∀ x, Decision (P x)} (l : list addr) :
  strictly_sorted h l → strictly_sorted h (filter P l).
Proof.
  induction l as [|x l IH]; [done|].
  rewrite strictly_sorted_cons. intros [Hx Hl].
  destruct (decide (P x)).
  - rewrite filter_cons_True by done. apply strictly_sorted_cons.
    split; [|by apply IH].
    intros y Hy. apply list_elem_of_filter in Hy as [_ Hy]. by apply Hx.
  - rewrite filter_cons_False by done. by apply IH.
Qed.

(** X11: [Node_free] of a child leaves the parent with its arrays in
    order: they have lost the child and nothing else. *)
Theorem Node_free_parent_sorted (t : ftree) (h : heap) (p : addr) (pn : node) :
  shape h (Some p) t → NoDup (addrs t) → p ∉ addrs t →
  h !! p = Some pn →
  array_ok h (oDDirChildren pn) → array_ok h (oDFileChildren pn) →
  (∀ d o x, sel d pn = Some o → x ∈ o → x ∈ addrs t → x = root t) →
  ∃ h', frees h (root t) h' (length (addrs t)) ∧
    h' !! p = Some (unlinked h (root t) pn) ∧
    array_ok h' (oDDirChildren (unlinked h (root t) pn)) ∧
    array_ok h' (oDFileChildren (unlinked h (root t) pn)).
Proof.
  intros Hshape Hnodup Hp Hpn Hd Hf Hentries.
  pose proof (Node_free_tree t h (Some p) Hshape Hnodup) as Hfree.
  unfold unlink_heap in Hfree. rewrite Hpn in Hfree.
  eexists. split; [apply Hfree; split; eauto|].
  split.
  { rewrite lookup_remove_all, decide_False by done.
    by rewrite lookup_insert_eq. }
  assert (∀ d o, sel d pn = Some o →
            array_ok h (Some o) →
            array_ok (remove_all (addrs t) (<[p := unlinked h (root t) pn]> h))
              (Some (drop_path h (root t) o))) as Hok.
  { intros d o Ho [Hal Hs].
    assert (∀ x, x ∈ drop_path h (root t) o → x ∈ o ∧ x ∉ addrs t) as Hin.
    { intros x Hx. apply list_elem_of_filter in Hx as [Hne Hx].
      split; [done|]. intros Hxt.
      rewrite (Hentries d o x Ho Hx Hxt), Path_comparePath_refl in Hne. done. }
    assert (∀ x, x ∈ drop_path h (root t) o →
              path_of <$> remove_all (addrs t)
                            (<[p := unlinked h (root t) pn]> h) !! x
              = path_of <$> h !! x) as Hpaths.
    { intros x Hx. destruct (Hin x Hx) as [_ Hxt].
      apply (after_child_path h p pn); [done| |done]. by destruct pn. }
    split.
    - apply (allocated_ext h); [done|].
      intros x Hx. apply Hal. by apply Hin.
    - apply (strictly_sorted_ext h); [done|].
      by apply strictly_sorted_filter. }
  split.
  - change (oDDirChildren (unlinked h (root t) pn))
      with (drop_path h (root t) <$> oDDirChildren pn).
    destruct (oDDirChildren pn) as [dl|] eqn:Hdl; [|done].
    by apply (Hok true dl).
  - change (oDFileChildren (unlinked h (root t) pn))
      with (drop_path h (root t) <$> oDFileChildren pn).
    destruct (oDFileChildren pn) as [fl|] eqn:Hfl; [|done].
    by apply (Hok false fl).
Qed.

(** * Further properties of the module *)

(** ** Node_new: what a successful call has done *)

Lemma Path_getSharedPrefixDepth_le (p q : Path) :
  (Path_getSharedPrefixDepth p q ≤ Path_getDepth q)%nat.
Proof.
  unfold Path_getDepth. revert q.
  induction p as [|c p IH]; intros [|d q]; simpl; try lia.
  destruct (String.eqb c d); [|lia]. specialize (IH q). lia.
Qed.

Lemma array_Ok' (a : option (list addr)) (l : list addr) :
  array a = Ok l → a = Some l.
Proof. destruct a; simpl; congruence. Qed.

(** The steps of a call of [Node_new] that returns [SUCCESS]. *)
Lemma Node_new_success (al : allocs) (h h' : heap) (isDirec : bool)
    (oPPath : Path) (oNParent : option addr) (pvContents : option nat)
    (ulLength : nat) (res : option addr) :
  Node_new al h isDirec oPPath oNParent pvContents ulLength
    = Ok (SUCCESS, res, h') →
  res = Some (fresh (dom h)) ∧ h !! fresh (dom h) = None ∧
  match oNParent with
  | None =>
      Path_getDepth oPPath = 1%nat ∧
      h' = <[fresh (dom h) :=
               new_node isDirec oPPath None pvContents ulLength]> h
  | Some p =>
      ∃ pn arr i cell,
        h !! p = Some pn ∧ sel isDirec pn = Some arr ∧ (i ≤ length arr)%nat ∧
        Node_hasChild h p oPPath None = Ok (false, i, cell) ∧
        ¬ (Path_getSharedPrefixDepth oPPath (path_of pn)
             < Path_getDepth (path_of pn))%nat ∧
        Path_getDepth oPPath = (Path_getDepth (path_of pn) + 1)%nat ∧
        h' = <[fresh (dom h) :=
                 new_node isDirec oPPath (Some p) pvContents ulLength]>
               (<[p := set_sel isDirec
                         (Some (take i arr ++ fresh (dom h) :: drop i arr))
                         pn]> h)
  end.
Proof.
  unfold Node_new. intros H.
  assert (h !! fresh (dom h) = None) as Hfresh
    by apply not_elem_of_dom, is_fresh.
  destruct (malloc_ok al); simpl in H; [|discriminate].
  destruct (dup_ok al); simpl in H; [|discriminate].
  bind_inv H as chk Hchk. destruct chk as [st|i]; [|].
  { injection H as -> _ _.
    destruct oNParent as [p|].
    - bind_inv Hchk as pn Hpn.
      case_decide as H1; [discriminate|]. case_decide as H2; [discriminate|].
      bind_inv Hchk as [[found i] cell] Hhas. destruct found; discriminate.
    - case_decide; discriminate. }
  destruct (dirs_ok al), (files_ok al); simpl in H; try discriminate.
  bind_inv H as [st h1] Hlink.
  case_decide as Hst; [by injection H as -> _ _|].
  injection H as <- <-. split; [done|]. split; [done|].
  destruct oNParent as [p|].
  - bind_inv Hchk as pn Hpn. apply deref_Ok in Hpn.
    case_decide as H1; [discriminate|]. case_decide as H2; [discriminate|].
    bind_inv Hchk as [[found i'] cell] Hhas.
    destruct found; [discriminate|]. injection Hchk as <-.
    unfold Node_addChild, deref in Hlink. rewrite Hpn in Hlink.
    simpl in Hlink.
    exists pn.
    destruct isDirec; bind_inv Hlink as arr Harr; apply array_Ok' in Harr;
      bind_inv Hlink as [ok arr'] Hat;
      apply DynArray_addAt_inv in Hat as (Hi & -> & ->);
      (destruct (grow_ok al); injection Hlink as <- <-;
       [|discriminate Hst]);
      exists arr, i', cell; repeat split; done.
  - case_decide as H1; [discriminate|]. injection Hlink as <- <-.
    by destruct isDirec.
Qed.

(** X1: the accessors on a node that [Node_new] has just created give
    back what the call was given: the path, the parent and the flag; a
    file has the contents and length supplied, a directory has [NULL]
    contents of length 0 whatever was supplied; the node has no children,
    and its string form is the pathname. *)
Theorem Node_new_accessors (al : allocs) (h h' : heap) (isDirec : bool)
    (oPPath : Path) (oNParent : option addr) (pvContents : option nat)
    (ulLength : nat) (a : addr) :
  Node_new al h isDirec oPPath oNParent pvContents ulLength
    = Ok (SUCCESS, Some a, h') →
  Node_getPath h' a = Ok oPPath ∧
  Node_getParent h' a = Ok oNParent ∧
  Node_isDir h' a = Ok isDirec ∧
  Node_getFileContents h' a = Ok (if isDirec then None else pvContents) ∧
  Node_getFileSize h' a = Ok (if isDirec then O else ulLength) ∧
  Node_getNumChildren h' a = Ok O ∧
  Node_toString true h' a = Ok (Some (Path_getPathname oPPath)).
Proof.
  intros H. apply Node_new_success in H as ([= ->] & _ & H).
  assert (h' !! fresh (dom h)
          = Some (new_node isDirec oPPath oNParent pvContents ulLength)) as Ha.
  { destruct oNParent as [p|].
    - destruct H as (pn & arr & i & cell & _ & _ & _ & _ & _ & _ & ->).
      by rewrite lookup_insert_eq.
    - destruct H as [_ ->]. by rewrite lookup_insert_eq. }
  unfold Node_getPath, Node_getParent, Node_isDir, Node_getFileContents,
    Node_getFileSize, Node_getNumChildren, Node_getNumDirChildren,
    Node_getNumFileChildren, Node_toString, Node_getPath, deref.
  rewrite Ha. simpl. done.
Qed.

Lemma Node_new_accessors_witness :
  Node_getPath tree_scenario 2%nat = Ok ["root"; "dir1"; "file1"]%string ∧
  Node_getParent tree_scenario 2%nat = Ok (Some 1%nat) ∧
  Node_isDir tree_scenario 2%nat = Ok false ∧
  Node_getFileContents tree_scenario 2%nat = Ok (Some 42%nat) ∧
  Node_getFileSize tree_scenario 2%nat = Ok 5%nat ∧
  Node_getNumChildren tree_scenario 2%nat = Ok O ∧
  Node_toString true tree_scenario 2%nat
    = Ok (Some (Path_getPathname ["root"; "dir1"; "file1"]%string)).
Proof.
  apply (Node_new_accessors all_ok
           (mkdir tree_root ["root"; "dir1"]%string (Some 0%nat))
           tree_scenario false ["root"; "dir1"; "file1"]%string
           (Some 1%nat) (Some 42%nat) 5 2%nat).
  vm_compute; reflexivity.
Defined.

(** X2: a successful [Node_new] under a parent puts the new node into
    the array selected by the flag and changes nothing else: the other
    entries of that array keep their order, the parent's other array and
    fields are what they were, every other node is untouched, and the
    parent has one child more. *)
Theorem Node_new_links_child (al : allocs) (h h' : heap) (isDirec : bool)
    (oPPath : Path) (p : addr) (pvContents : option nat) (ulLength : nat)
    (a : addr) :
  Node_new al h isDirec oPPath (Some p) pvContents ulLength
    = Ok (SUCCESS, Some a, h') →
  ∃ pn arr i n,
    h !! p = Some pn ∧ h !! a = None ∧
    sel isDirec pn = Some arr ∧ (i ≤ length arr)%nat ∧
    h' !! p = Some (set_sel isDirec (Some (take i arr ++ a :: drop i arr)) pn) ∧
    (∀ q, q ≠ p → q ≠ a → h' !! q = h !! q) ∧
    Node_getNumChildren h p = Ok n ∧
    Node_getNumChildren h' p = Ok (S n).
Proof.
  intros H. apply Node_new_success in H as ([= ->] & Hfresh & H).
  destruct H as (pn & arr & i & cell & Hp & Hsel & Hi & Hhas & _ & _ & ->).
  assert (fresh (dom h) ≠ p) as Hne by congruence.
  assert (∃ dl fl, oDDirChildren pn = Some dl ∧ oDFileChildren pn = Some fl)
    as (dl & fl & Hd & Hf).
  { unfold Node_hasChild, deref in Hhas. rewrite Hp in Hhas. simpl in Hhas.
    bind_inv Hhas as dl Hdl. apply array_Ok' in Hdl.
    bind_inv Hhas as [found1 i1] Hb1. destruct found1; [discriminate|].
    bind_inv Hhas as fl Hfl. apply array_Ok' in Hfl. eauto. }
  exists pn, arr, i, (length dl + length fl)%nat.
  split; [done|]. split; [done|]. split; [done|]. split; [done|].
  split; [|split; [|split]].
  - by rewrite lookup_insert_ne, lookup_insert_eq.
  - intros q Hqp Hqa. by rewrite !lookup_insert_ne.
  - unfold Node_getNumChildren, Node_getNumDirChildren,
      Node_getNumFileChildren, deref. rewrite Hp. simpl.
    rewrite Hd, Hf. done.
  - unfold Node_getNumChildren, Node_getNumDirChildren,
      Node_getNumFileChildren, deref.
    rewrite lookup_insert_ne, lookup_insert_eq by done. simpl.
    destruct isDirec; simpl in *; rewrite ?Hd, ?Hf; simpl;
      unfold DynArray_getLength;
      rewrite length_app, length_take; simpl; rewrite length_drop;
      do 2 f_equal.
    + assert (arr = dl) as -> by congruence. lia.
    + assert (arr = fl) as -> by congruence. lia.
Qed.

Lemma Node_new_links_child_witness :
  ∃ pn arr i n,
    tree_ab !! 0%nat = Some pn ∧ tree_ab !! 3%nat = None ∧
    sel true pn = Some arr ∧ (i ≤ length arr)%nat ∧
    tree_abc !! 0%nat
      = Some (set_sel true (Some (take i arr ++ 3%nat :: drop i arr)) pn) ∧
    (∀ q, q ≠ 0%nat → q ≠ 3%nat → tree_abc !! q = tree_ab !! q) ∧
    Node_getNumChildren tree_ab 0%nat = Ok n ∧
    Node_getNumChildren tree_abc 0%nat = Ok (S n).
Proof.
  apply (Node_new_links_child all_ok tree_ab tree_abc true
           ["root"; "c"]%string 0%nat None 0 3%nat).
  vm_compute; reflexivity.
Defined.

(** X3: every node that [Node_new] creates satisfies the depth and
    ancestry rules: without a parent its path has depth 1; with a parent
    its path is exactly one level deeper than the parent's and shares
    with it a prefix of the parent's full depth. *)
Theorem Node_new_depth_invariant (al : allocs) (h h' : heap) (isDirec : bool)
    (oPPath : Path) (oNParent : option addr) (pvContents : option nat)
    (ulLength : nat) (a : addr) :
  Node_new al h isDirec oPPath oNParent pvContents ulLength
    = Ok (SUCCESS, Some a, h') →
  match oNParent with
  | None => Path_getDepth oPPath = 1%nat
  | Some p =>
      ∃ pn, h !! p = Some pn ∧
        Path_getDepth oPPath = (Path_getDepth (path_of pn) + 1)%nat ∧
        Path_getSharedPrefixDepth oPPath (path_of pn)
          = Path_getDepth (path_of pn)
  end.
Proof.
  intros H. apply Node_new_success in H as (_ & _ & H).
  destruct oNParent as [p|]; [|by destruct H].
  destruct H as (pn & arr & i & cell & Hp & _ & _ & _ & Hshared & Hdepth & _).
  exists pn. split; [done|]. split; [done|].
  pose proof (Path_getSharedPrefixDepth_le oPPath (path_of pn)). lia.
Qed.

Lemma Node_new_depth_invariant_witness :
  ∃ pn, mkdir tree_root ["root"; "dir1"]%string (Some 0%nat) !! 1%nat = Some pn ∧
    Path_getDepth ["root"; "dir1"; "file1"]%string
      = (Path_getDepth (path_of pn) + 1)%nat ∧
    Path_getSharedPrefixDepth ["root"; "dir1"; "file1"]%string (path_of pn)
      = Path_getDepth (path_of pn).
Proof.
  apply (Node_new_depth_invariant all_ok
           (mkdir tree_root ["root"; "dir1"]%string (Some 0%nat))
           tree_scenario false ["root"; "dir1"; "file1"]%string
           (Some 1%nat) (Some 42%nat) 5 2%nat).
  vm_compute; reflexivity.
Defined.

(** ** Node_hasChild: what a search that succeeds has found *)

(** A search that reports an entry has read, at the index it returns, an
    entry on which the comparator gave 0. *)
Lemma bsearch_loop_true {A : Type} (pfCompare : A → outcome Z) (l : list A)
    (fuel ulLo ulHi i : nat) :
  bsearch_loop pfCompare l fuel ulLo ulHi = Ok (true, i) →
  ∃ x, l !! i = Some x ∧ pfCompare x = Ok 0.
Proof.
  revert ulLo ulHi. induction fuel as [|fuel IH]; intros lo hi;
    cbn [bsearch_loop]; case_decide as Hr; try discriminate.
  intros H. bind_inv H as x Hx. bind_inv H as iCmp Hc.
  unfold DynArray_get in Hx.
  destruct (l !! (lo + (hi - lo) / 2)%nat) as [y|] eqn:Hy; [|discriminate].
  injection Hx as ->.
  case_decide as H0.
  - injection H as <-. subst iCmp. eauto.
  - case_decide; by apply IH in H.
Qed.

(** In an array strictly ordered for the key, the search finds the entry
    that compares equal, at its index. *)
Lemma bsearch_strict_at {A : Type} (pfCompare : A → outcome Z) (l : list A)
    (f : A → Z) (k : nat) (x : A) :
  (∀ x, x ∈ l → pfCompare x = Ok (f x)) →
  key_strict f l → l !! k = Some x → f x = 0 →
  DynArray_bsearch pfCompare l = Ok (true, k).
Proof.
  intros Htotal Hs Hk H0. apply lookup_lt_Some in Hk as Hlen.
  apply (bsearch_loop_found pfCompare l f Htotal k x); try (done || lia).
  - intros j y Hj Hy. apply (Hs j k y x Hj Hy Hk). lia.
  - intros j y Hj Hy. destruct (Z_lt_le_dec 0 (f y)) as [|Hy0]; [done|].
    pose proof (Hs k j x y Hj Hk Hy Hy0). lia.
Qed.

Lemma strictly_sorted_key_strict_string (h : heap) (key : string)
    (l : list addr) :
  strictly_sorted h l →
  key_strict (λ e, Path_compareString (path_at h e) key) l.
Proof.
  intros Hs i j x y Hij Hx Hy Hle.
  unfold Path_compareString, Path_comparePath in *.
  eapply strcmp_lt_le_trans; [|done]. by apply (Hs i j).
Qed.

Lemma Node_compareString_zero (h : heap) (e : addr) (key : string) :
  Node_compareString h e key = Ok 0 →
  ∃ ne, h !! e = Some ne ∧ Path_getPathname (path_of ne) = key.
Proof.
  unfold Node_compareString, deref. destruct (h !! e) as [ne|]; [|discriminate].
  simpl. intros [= H0]. exists ne. split; [done|]. by apply strcmp_eq.
Qed.

(** The cases of a [Node_hasChild] that returns true. *)
Lemma Node_hasChild_true_inv (h : heap) (p : addr) (pn : node) (oPPath : Path)
    (cell cell' : option bool) (i : nat) :
  h !! p = Some pn →
  Node_hasChild h p oPPath cell = Ok (true, i, cell') →
  ∃ d arr c nc,
    cell' = Some d ∧ sel d pn = Some arr ∧ arr !! i = Some c ∧
    h !! c = Some nc ∧
    Path_getPathname (path_of nc) = Path_getPathname oPPath.
Proof.
  intros Hp. unfold Node_hasChild, deref. rewrite Hp. simpl. intros H.
  bind_inv H as dl Hdl. apply array_Ok' in Hdl.
  bind_inv H as [found1 i1] Hb1. destruct found1.
  - injection H as <- <-.
    apply bsearch_loop_true in Hb1 as (c & Hc & H0).
    apply Node_compareString_zero in H0 as (nc & Hnc & Heq).
    by exists true, dl, c, nc.
  - bind_inv H as fl Hfl. apply array_Ok' in Hfl.
    bind_inv H as [found2 i2] Hb2. destruct found2; [|discriminate].
    injection H as <- <-.
    apply bsearch_loop_true in Hb2 as (c & Hc & H0).
    apply Node_compareString_zero in H0 as (nc & Hnc & Heq).
    by exists false, fl, c, nc.
Qed.

(** X4: when [Node_hasChild] returns true, the flag it writes to
    [*isDir] names one of the two arrays, the index it leaves is inside
    that array, the entry there is a node of the path searched, and
    [Node_getChild] with this flag and index returns that node. *)
Theorem Node_hasChild_found (h : heap) (p : addr) (pn : node) (oPPath : Path)
    (cell cell' : option bool) (i : nat) :
  h !! p = Some pn →
  Node_hasChild h p oPPath cell = Ok (true, i, cell') →
  ∃ d c nc,
    cell' = Some d ∧ h !! c = Some nc ∧
    Path_getPathname (path_of nc) = Path_getPathname oPPath ∧
    Node_getChild h d p i = Ok (SUCCESS, Some c).
Proof.
  intros Hp H.
  destruct (Node_hasChild_true_inv h p pn oPPath cell cell' i Hp H)
    as (d & arr & c & nc & -> & Hsel & Hc & Hnc & Heq).
  exists d, c, nc. split; [done|]. split; [done|]. split; [done|].
  apply lookup_lt_Some in Hc as Hlt.
  unfold Node_getChild, Node_getNumDirChildren, Node_getNumFileChildren,
    DynArray_getLength, DynArray_get, deref.
  destruct d; simpl in Hsel; rewrite Hp; simpl; rewrite Hsel; simpl;
    (case_decide; [lia|]); by rewrite Hc.
Qed.

Lemma Node_hasChild_found_witness :
  ∃ d c nc,
    Some false = Some d ∧ tree_files !! c = Some nc ∧
    Path_getPathname (path_of nc) = Path_getPathname ["root"; "h"]%string ∧
    Node_getChild tree_files d 0%nat 1 = Ok (SUCCESS, Some c).
Proof.
  apply (Node_hasChild_found tree_files 0%nat
           (mkNode true ["root"]%string None (Some [1]%nat) (Some [2; 3]%nat)
                   None 0) ["root"; "h"]%string None (Some false) 1).
  - vm_compute; reflexivity.
  - vm_compute; reflexivity.
Defined.

(** ** Node_hasChild: what a search of sorted arrays finds *)

Lemma pathname_compare_zero (h : heap) (c : addr) (nc : node) (oPPath : Path) :
  h !! c = Some nc →
  Path_getPathname (path_of nc) = Path_getPathname oPPath →
  Path_compareString (path_at h c) (Path_getPathname oPPath) = 0.
Proof.
  intros Hc Heq. unfold Path_compareString, path_at. rewrite Hc.
  by apply strcmp_eq.
Qed.

Lemma Node_hasChild_in_dirs (h : heap) (p : addr) (pn : node)
    (dl : list addr) (oPPath : Path) (cell : option bool) (k : nat)
    (c : addr) (nc : node) :
  h !! p = Some pn → oDDirChildren pn = Some dl →
  allocated h dl → strictly_sorted h dl →
  dl !! k = Some c → h !! c = Some nc →
  Path_getPathname (path_of nc) = Path_getPathname oPPath →
  Node_hasChild h p oPPath cell = Ok (true, k, Some true).
Proof.
  intros Hp Hd Hal Hs Hk Hc Heq. unfold Node_hasChild, deref.
  rewrite Hp. simpl. rewrite Hd. simpl.
  rewrite (bsearch_strict_at _ dl
             (λ e, Path_compareString (path_at h e) (Path_getPathname oPPath))
             k c); try done.
  - by apply Node_compareString_allocated.
  - by apply strictly_sorted_key_strict_string.
  - by apply (pathname_compare_zero h c nc).
Qed.

Lemma Node_hasChild_in_files (h : heap) (p : addr) (pn : node)
    (dl fl : list addr) (oPPath : Path) (cell : option bool) (i1 k : nat)
    (c : addr) (nc : node) :
  h !! p = Some pn → oDDirChildren pn = Some dl → oDFileChildren pn = Some fl →
  DynArray_bsearch
    (λ e, Node_compareString h e (Path_getPathname oPPath)) dl
    = Ok (false, i1) →
  allocated h fl → strictly_sorted h fl →
  fl !! k = Some c → h !! c = Some nc →
  Path_getPathname (path_of nc) = Path_getPathname oPPath →
  Node_hasChild h p oPPath cell = Ok (true, k, Some false).
Proof.
  intros Hp Hd Hf Hdirs Hal Hs Hk Hc Heq. unfold Node_hasChild, deref.
  rewrite Hp. simpl. rewrite Hd. simpl. rewrite Hdirs. simpl.
  rewrite Hf. simpl.
  rewrite (bsearch_strict_at _ fl
             (λ e, Path_compareString (path_at h e) (Path_getPathname oPPath))
             k c); try done.
  - by apply Node_compareString_allocated.
  - by apply strictly_sorted_key_strict_string.
  - by apply (pathname_compare_zero h c nc).
Qed.

(** X5: under a parent whose arrays are strictly sorted, [Node_hasChild]
    finds every child by its path: a directory child at index [k] gives
    true, index [k] and the flag [TRUE]; a file child at index [k], when
    no directory child has its path, gives true, index [k] and the flag
    [FALSE]. *)
Theorem Node_hasChild_finds_child (h : heap) (p : addr) (pn : node)
    (dl fl : list addr) (oPPath : Path) (cell : option bool) (k : nat)
    (c : addr) (nc : node) :
  h !! p = Some pn → oDDirChildren pn = Some dl → oDFileChildren pn = Some fl →
  allocated h dl → allocated h fl →
  strictly_sorted h dl → strictly_sorted h fl →
  h !! c = Some nc →
  Path_getPathname (path_of nc) = Path_getPathname oPPath →
  (dl !! k = Some c →
     Node_hasChild h p oPPath cell = Ok (true, k, Some true)) ∧
  (fl !! k = Some c → no_match h oPPath dl →
     Node_hasChild h p oPPath cell = Ok (true, k, Some false)).
Proof.
  intros Hp Hd Hf Hald Half Hsd Hsf Hc Heq. split.
  - intros Hk. by apply (Node_hasChild_in_dirs h p pn dl oPPath cell k c nc).
  - intros Hk Hno.
    destruct (bsearch_no_match h oPPath dl Hno) as (i1 & Hi1 & _).
    by apply (Node_hasChild_in_files h p pn dl fl oPPath cell i1 k c nc).
Qed.

Lemma strictly_sorted_pair (h : heap) (x y : addr) :
  Path_comparePath (path_at h x) (path_at h y) < 0 →
  strictly_sorted h [x; y].
Proof.
  intros Hxy i j a b Hij Ha Hb.
  destruct i as [|[|i]], j as [|[|j]]; simpl in *; try lia; try done.
  by injection Ha as <-; injection Hb as <-.
Qed.

Lemma allocatedb_sound (h : heap) (l : list addr) :
  forallb (λ c, bool_decide (is_Some (h !! c))) l = true → allocated h l.
Proof.
  rewrite forallb_forall. intros H x Hx. apply list_elem_of_In in Hx.
  apply H in Hx. by apply bool_decide_eq_true in Hx.
Qed.

Lemma Node_hasChild_finds_child_witness :
  ([1]%nat !! 1%nat = Some 3%nat →
     Node_hasChild tree_files 0%nat ["root"; "h"]%string None
       = Ok (true, 1%nat, Some true)) ∧
  ([2; 3]%nat !! 1%nat = Some 3%nat →
     no_match tree_files ["root"; "h"]%string [1]%nat →
     Node_hasChild tree_files 0%nat ["root"; "h"]%string None
       = Ok (true, 1%nat, Some false)).
Proof.
  apply (Node_hasChild_finds_child tree_files 0%nat
           (mkNode true ["root"]%string None (Some [1]%nat) (Some [2; 3]%nat)
                   None 0) [1]%nat [2; 3]%nat ["root"; "h"]%string None 1 3%nat
           (mkNode false ["root"; "h"]%string (Some 0%nat) (Some []) (Some [])
                   (Some 11%nat) 7)).
  - vm_compute; reflexivity.
  - reflexivity.
  - reflexivity.
  - apply allocatedb_sound. vm_compute; reflexivity.
  - apply allocatedb_sound. vm_compute; reflexivity.
  - apply strictly_sorted_singleton.
  - apply strictly_sorted_pair. vm_compute; reflexivity.
  - vm_compute; reflexivity.
  - reflexivity.
Defined.

(** ** Node_new: the duplicate check *)

(** Under a parent whose arrays are strictly sorted, [Node_hasChild]
    returns true when some child has the path. *)
Lemma Node_hasChild_some (h : heap) (p : addr) (pn : node)
    (dl fl : list addr) (oPPath : Path) (cell : option bool) :
  h !! p = Some pn → oDDirChildren pn = Some dl → oDFileChildren pn = Some fl →
  allocated h dl → allocated h fl →
  strictly_sorted h dl → strictly_sorted h fl →
  has_child_of_path h pn oPPath →
  ∃ i cell', Node_hasChild h p oPPath cell = Ok (true, i, cell').
Proof.
  intros Hp Hd Hf Hald Half Hsd Hsf (d & arr & c & nc & Hsel & Hc & Hnc & Heq).
  apply list_elem_of_lookup_1 in Hc as [k Hk].
  destruct d; simpl in Hsel.
  - assert (arr = dl) as -> by congruence.
    exists k, (Some true).
    by apply (Node_hasChild_in_dirs h p pn dl oPPath cell k c nc).
  - assert (arr = fl) as -> by congruence.
    destruct (bsearch_strict
                (λ e, Node_compareString h e (Path_getPathname oPPath)) dl
                (λ e, Path_compareString (path_at h e) (Path_getPathname oPPath))
                (Node_compareString_allocated h _ dl Hald)
                (strictly_sorted_key_strict_string h _ dl Hsd))
      as [(k1 & x & Hb & _)|(i1 & Hb & _)].
    + exists k1, (Some true). unfold Node_hasChild, deref.
      rewrite Hp. simpl. rewrite Hd. simpl. by rewrite Hb.
    + exists k, (Some false).
      by apply (Node_hasChild_in_files h p pn dl fl oPPath cell i1 k c nc).
Qed.

(** X6: [Node_new] returns [ALREADY_IN_TREE] only when the parent has,
    in one of its two arrays, a child whose pathname is that of the new
    path; the heap is then unchanged and the result [NULL]. *)
Theorem Node_new_already_in_tree_sound (al : allocs) (h h' : heap)
    (isDirec : bool) (oPPath : Path) (oNParent : option addr)
    (pvContents : option nat) (ulLength : nat) (res : option addr) :
  Node_new al h isDirec oPPath oNParent pvContents ulLength
    = Ok (ALREADY_IN_TREE, res, h') →
  ∃ p pn, oNParent = Some p ∧ h !! p = Some pn ∧
    has_child_of_path h pn oPPath ∧ h' = h ∧ res = None.
Proof.
  unfold Node_new. intros H.
  destruct (malloc_ok al); simpl in H; [|discriminate].
  destruct (dup_ok al); simpl in H; [|discriminate].
  bind_inv H as chk Hchk. destruct oNParent as [p|].
  - bind_inv Hchk as pn Hpn. apply deref_Ok in Hpn.
    case_decide as H1; [by injection Hchk as <-|].
    case_decide as H2; [by injection Hchk as <-|].
    bind_inv Hchk as [[found i] cell] Hhas. destruct found.
    + injection Hchk as <-. injection H as <- <-.
      exists p, pn. split; [done|]. split; [done|]. split; [|done].
      destruct (Node_hasChild_true_inv h p pn oPPath None cell i Hpn Hhas)
        as (d & arr & c & nc & _ & Hsel & Hc & Hnc & Heq).
      exists d, arr, c, nc. split; [done|]. split; [|done].
      by eapply list_elem_of_lookup_2.
    + injection Hchk as <-.
      destruct (dirs_ok al), (files_ok al); simpl in H; try discriminate.
      bind_inv H as [st h1] Hlink.
      apply Node_addChild_status in Hlink as [[-> _]|[-> _]];
        case_decide; discriminate.
  - case_decide; [by injection Hchk as <-|]. injection Hchk as <-.
    destruct (dirs_ok al), (files_ok al); discriminate.
Qed.

Lemma Node_new_already_in_tree_sound_witness :
  ∃ p pn, Some 0%nat = Some p ∧ tree_files !! p = Some pn ∧
    has_child_of_path tree_files pn ["root"; "h"]%string ∧
    tree_files = tree_files ∧ (None : option addr) = None.
Proof.
  apply (Node_new_already_in_tree_sound all_ok tree_files tree_files true
           ["root"; "h"]%string (Some 0%nat) None 0 None).
  vm_compute; reflexivity.
Defined.

(** X7: under a parent whose arrays are strictly sorted, a path that one
    of the children already has is refused: once the struct and the copy
    of the path are allocated and the depth checks pass, [Node_new]
    returns [ALREADY_IN_TREE] and changes nothing, be the existing child
    a directory or a file and whatever the flag of the new node. *)
Theorem Node_new_already_in_tree (al : allocs) (h : heap) (isDirec : bool)
    (oPPath : Path) (p : addr) (pn : node) (dl fl : list addr)
    (pvContents : option nat) (ulLength : nat) :
  malloc_ok al = true → dup_ok al = true →
  h !! p = Some pn → oDDirChildren pn = Some dl → oDFileChildren pn = Some fl →
  allocated h dl → allocated h fl →
  strictly_sorted h dl → strictly_sorted h fl →
  Path_getSharedPrefixDepth oPPath (path_of pn) = Path_getDepth (path_of pn) →
  Path_getDepth oPPath = (Path_getDepth (path_of pn) + 1)%nat →
  has_child_of_path h pn oPPath →
  Node_new al h isDirec oPPath (Some p) pvContents ulLength
    = Ok (ALREADY_IN_TREE, None, h).
Proof.
  intros Hm Hdup Hp Hd Hf Hald Half Hsd Hsf Hshared Hdepth Hchild.
  destruct (Node_hasChild_some h p pn dl fl oPPath None Hp Hd Hf Hald Half
              Hsd Hsf Hchild) as (i & cell' & Hhas).
  unfold Node_new, deref. rewrite Hm, Hdup, Hp. simpl.
  case_decide; [lia|]. case_decide; [done|]. simpl.
  by rewrite Hhas.
Qed.

Lemma Node_new_already_in_tree_witness :
  Node_new all_ok tree_files true ["root"; "h"]%string (Some 0%nat) None 0
    = Ok (ALREADY_IN_TREE, None, tree_files).
Proof.
  apply (Node_new_already_in_tree all_ok tree_files true ["root"; "h"]%string
           0%nat
           (mkNode true ["root"]%string None (Some [1]%nat) (Some [2; 3]%nat)
                   None 0) [1]%nat [2; 3]%nat).
  - reflexivity.
  - reflexivity.
  - vm_compute; reflexivity.
  - reflexivity.
  - reflexivity.
  - apply allocatedb_sound. vm_compute; reflexivity.
  - apply allocatedb_sound. vm_compute; reflexivity.
  - apply strictly_sorted_singleton.
  - apply strictly_sorted_pair. vm_compute; reflexivity.
  - reflexivity.
  - reflexivity.
  - exists false, [2; 3]%nat, 3%nat,
      (mkNode false ["root"; "h"]%string (Some 0%nat) (Some []) (Some [])
              (Some 11%nat) 7).
    split; [reflexivity|]. split; [|split; [vm_compute; reflexivity|reflexivity]].
    apply list_elem_of_In. simpl. auto.
Defined.

(** ** Node_new of a file, followed by a lookup or by Node_free *)

Lemma bsearch_loop_ext {A : Type} (pfCompare pfCompare' : A → outcome Z)
    (l : list A) (fuel ulLo ulHi : nat) :
  (∀ x, x ∈ l → pfCompare' x = pfCompare x) →
  bsearch_loop pfCompare' l fuel ulLo ulHi
    = bsearch_loop pfCompare l fuel ulLo ulHi.
Proof.
  intros Hext. revert ulLo ulHi.
  induction fuel as [|fuel IH]; intros lo hi; cbn [bsearch_loop]; [done|].
  case_decide; [done|]. unfold DynArray_get.
  destruct (l !! (lo + (hi - lo) / 2)%nat) as [y|] eqn:Hy; [|done].
  cbn [mbind outcome_bind].
  rewrite Hext by (by eapply list_elem_of_lookup_2).
  destruct (pfCompare y) as [iCmp| |]; [|done..].
  cbn [mbind outcome_bind]. by rewrite !IH.
Qed.

Lemma Node_compareString_ext (h g : heap) (key : string) (x : addr) :
  path_of <$> g !! x = path_of <$> h !! x →
  Node_compareString g x key = Node_compareString h x key.
Proof.
  unfold Node_compareString, deref, path_of.
  destruct (g !! x), (h !! x); simpl; intros [=]; congruence.
Qed.

Lemma delete_insert_at {A : Type} (l : list A) (i : nat) (x : A) :
  (i ≤ length l)%nat → delete i (take i l ++ x :: drop i l) = l.
Proof.
  intros Hi.
  rewrite <- (take_drop i l) at 3.
  rewrite <- (delete_middle (take i l) (drop i l) x).
  by rewrite length_take, Nat.min_l.
Qed.

Lemma strictly_sorted_sorted (h : heap) (l : list addr) :
  strictly_sorted h l → sorted_by_path h l.
Proof. intros Hs i j x y Hij Hx Hy. pose proof (Hs i j x y Hij Hx Hy). lia. Qed.

(** Inserting an entry at its insertion position keeps an array strictly
    sorted. *)
Lemma strictly_sorted_insert (h g : heap) (l : list addr) (i : nat) (a : addr) :
  (i ≤ length l)%nat →
  strictly_sorted h l →
  (∀ c, c ∈ l → path_at g c = path_at h c) →
  (∀ k c, l !! k = Some c →
     ((k < i)%nat → Path_comparePath (path_at h c) (path_at g a) < 0) ∧
     ((i ≤ k)%nat → 0 < Path_comparePath (path_at h c) (path_at g a))) →
  strictly_sorted g (take i l ++ a :: drop i l).
Proof.
  intros Hi Hs Hpaths Hpos m n x y Hmn.
  rewrite !lookup_insert_at by done. intros Hx Hy.
  assert (∀ k c, l !! k = Some c → path_at g c = path_at h c) as Hp.
  { intros k c Hc. apply Hpaths. by eapply list_elem_of_lookup_2. }
  repeat case_decide; simplify_eq; try lia.
  - rewrite (Hp _ _ Hx), (Hp _ _ Hy). by apply (Hs m n).
  - rewrite (Hp _ _ Hx). destruct (Hpos _ _ Hx) as [Hlt _]. auto.
  - rewrite (Hp _ _ Hx), (Hp _ _ Hy). apply (Hs m (n - 1)%nat); (done || lia).
  - rewrite (Hp _ _ Hy). destruct (Hpos _ _ Hy) as [_ Hgt].
    rewrite Path_comparePath_antisym.
    assert (0 < Path_comparePath (path_at h y) (path_at g x)) by (apply Hgt; lia).
    lia.
  - rewrite (Hp _ _ Hx), (Hp _ _ Hy).
    apply (Hs (m - 1)%nat (n - 1)%nat); (done || lia).
Qed.

(** What a successful [Node_new] of a file has computed and done, under
    a parent whose children are allocated and whose file children are
    sorted. *)
Lemma Node_new_file_facts (al : allocs) (h h' : heap) (oPPath : Path)
    (p a : addr) (pn : node) (dl fl : list addr) (pvContents : option nat)
    (ulLength : nat) :
  h !! p = Some pn →
  oDDirChildren pn = Some dl → oDFileChildren pn = Some fl →
  allocated h fl → sorted_by_path h fl →
  Node_new al h false oPPath (Some p) pvContents ulLength
    = Ok (SUCCESS, Some a, h') →
  ∃ i i1,
    (i ≤ length fl)%nat ∧ h !! a = None ∧ a ≠ p ∧
    DynArray_bsearch
      (λ e, Node_compareString h e (Path_getPathname oPPath)) dl
      = Ok (false, i1) ∧
    (∀ k c, fl !! k = Some c →
       ((k < i)%nat → Path_comparePath (path_at h c) oPPath < 0) ∧
       ((i ≤ k)%nat → 0 < Path_comparePath (path_at h c) oPPath)) ∧
    h' = <[a := new_node false oPPath (Some p) pvContents ulLength]>
           (<[p := set_oDFileChildren
                     (Some (take i fl ++ a :: drop i fl)) pn]> h).
Proof.
  intros Hp Hd Hf Hal Hs H.
  apply Node_new_success in H as ([= ->] & Hfresh & H).
  destruct H as (pn0 & arr & i & cell & Hp0 & Hsel & Hi & Hhas & _ & _ & ->).
  assert (pn0 = pn) as -> by congruence. simpl in Hsel.
  assert (arr = fl) as -> by congruence.
  assert (∃ i1, DynArray_bsearch
            (λ e, Node_compareString h e (Path_getPathname oPPath)) dl
            = Ok (false, i1)) as [i1 Hi1].
  { unfold Node_hasChild, deref in Hhas. rewrite Hp in Hhas. simpl in Hhas.
    rewrite Hd in Hhas. simpl in Hhas.
    bind_inv Hhas as [found1 i1] Hb1. destruct found1; [discriminate|]. eauto. }
  apply (Node_hasChild_false h p pn dl fl) in Hhas; try done.
  exists i, i1. split; [done|]. split; [done|].
  split; [congruence|]. split; [done|]. split; [|done].
  apply (bsearch_loop_insertion _ fl
           (λ e, Path_compareString (path_at h e) (Path_getPathname oPPath))
           (Node_compareString_allocated h _ fl Hal)
           (length fl) 0 (length fl));
    [by apply sorted_by_path_key_monotone|lia|lia| | |done].
  - intros k' x Hk'. lia.
  - intros k' x Hk' Hx. apply lookup_lt_Some in Hx. lia.
Qed.

(** The heap after the file is created: the paths of the nodes that were
    there are what they were, and the new node has the new path. *)
Lemma Node_new_file_paths (h : heap) (p a : addr) (pn : node) (nd : node)
    (o : option (list addr)) (x : addr) :
  h !! p = Some pn → h !! a = None → is_Some (h !! x) →
  path_of <$> <[a := nd]> (<[p := set_oDFileChildren o pn]> h) !! x
    = path_of <$> h !! x.
Proof.
  intros Hp Ha [nx Hx]. rewrite lookup_insert_ne by congruence.
  destruct (decide (x = p)) as [->|].
  - by rewrite lookup_insert_eq, Hp.
  - by rewrite lookup_insert_ne.
Qed.

(** X8: a file that [Node_new] has created under a parent whose file
    children are sorted is found again: [Node_hasChild] with its path
    returns true with the flag [FALSE] and an index at which
    [Node_getChild] returns the new node. *)
Theorem Node_new_file_lookup (al : allocs) (h h' : heap) (oPPath : Path)
    (p a : addr) (pn : node) (dl fl : list addr) (pvContents : option nat)
    (ulLength : nat) (cell : option bool) :
  h !! p = Some pn →
  oDDirChildren pn = Some dl → oDFileChildren pn = Some fl →
  allocated h dl → allocated h fl → sorted_by_path h fl →
  Node_new al h false oPPath (Some p) pvContents ulLength
    = Ok (SUCCESS, Some a, h') →
  ∃ i, Node_hasChild h' p oPPath cell = Ok (true, i, Some false) ∧
    Node_getChild h' false p i = Ok (SUCCESS, Some a).
Proof.
  intros Hp Hd Hf Hald Half Hs H.
  destruct (Node_new_file_facts al h h' oPPath p a pn dl fl pvContents
              ulLength Hp Hd Hf Half Hs H)
    as (i & i1 & Hi & Hfresh & Hne & Hdirs & Hpos & ->).
  set (nd := new_node false oPPath (Some p) pvContents ulLength).
  set (fl' := take i fl ++ a :: drop i fl).
  set (h' := <[a := nd]> (<[p := set_oDFileChildren (Some fl') pn]> h)).
  assert (h' !! p = Some (set_oDFileChildren (Some fl') pn)) as Hp'.
  { unfold h'. by rewrite lookup_insert_ne, lookup_insert_eq. }
  assert (h' !! a = Some nd) as Ha' by (unfold h'; by rewrite lookup_insert_eq).
  assert (∀ x, is_Some (h !! x) →
            path_of <$> h' !! x = path_of <$> h !! x) as Hpaths.
  { intros x Hx. by apply Node_new_file_paths. }
  assert (length fl' = S (length fl)) as Hlen.
  { unfold fl'. rewrite length_app, length_take. simpl.
    rewrite length_drop. lia. }
  assert (fl' !! i = Some a) as Hfl'i.
  { unfold fl'. rewrite lookup_insert_at by done.
    rewrite decide_False by lia. by rewrite decide_True. }
  assert (DynArray_bsearch
            (λ e, Node_compareString h' e (Path_getPathname oPPath)) dl
          = Ok (false, i1)) as Hdirs'.
  { rewrite <- Hdirs. apply bsearch_loop_ext.
    intros x Hx. by apply Node_compareString_ext, Hpaths, Hald. }
  assert (DynArray_bsearch
            (λ e, Node_compareString h' e (Path_getPathname oPPath)) fl'
          = Ok (true, i)) as Hfiles'.
  { apply (bsearch_loop_found _ fl'
             (λ e, Path_compareString (path_at h' e) (Path_getPathname oPPath))
             ) with (x := a); try (done || lia).
    - apply Node_compareString_allocated. intros x Hx.
      apply list_elem_of_lookup_1 in Hx as [m Hm]. unfold fl' in Hm.
      rewrite lookup_insert_at in Hm by done.
      repeat case_decide; simplify_eq; [|eauto|];
        (apply (allocated_ext h h' fl); [intros; by apply Hpaths, Half|done|]);
        by eapply list_elem_of_lookup_2.
    - unfold Path_compareString, path_at. rewrite Ha'. apply strcmp_refl.
    - intros j y Hj Hy. unfold fl' in Hy.
      rewrite lookup_insert_at, decide_True in Hy by done.
      rewrite (path_at_ext h h')
        by (apply Hpaths, Half; by eapply list_elem_of_lookup_2).
      by apply (Hpos j y).
    - intros j y Hj Hy. unfold fl' in Hy.
      rewrite lookup_insert_at, !decide_False in Hy by (done || lia).
      rewrite (path_at_ext h h')
        by (apply Hpaths, Half; by eapply list_elem_of_lookup_2).
      apply (Hpos (j - 1)%nat y); [done|lia]. }
  exists i. split.
  - unfold Node_hasChild, deref. rewrite Hp'. simpl. rewrite Hd. simpl.
    rewrite Hdirs'. simpl. by rewrite Hfiles'.
  - unfold Node_getChild, Node_getNumFileChildren, DynArray_getLength,
      DynArray_get, deref. rewrite Hp'. simpl.
    case_decide; [lia|]. by rewrite Hfl'i.
Qed.

Lemma sorted_by_path_pair (h : heap) (x y : addr) :
  Path_comparePath (path_at h x) (path_at h y) ≤ 0 →
  sorted_by_path h [x; y].
Proof.
  intros Hxy i j a b Hij Ha Hb.
  destruct i as [|[|i]], j as [|[|j]]; simpl in *; try lia; try done.
  by injection Ha as <-; injection Hb as <-.
Qed.

Lemma Node_new_file_lookup_witness :
  ∃ i, Node_hasChild tree_files_g 0%nat ["root"; "g"]%string None
         = Ok (true, i, Some false) ∧
    Node_getChild tree_files_g false 0%nat i = Ok (SUCCESS, Some 4%nat).
Proof.
  apply (Node_new_file_lookup all_ok tree_files tree_files_g
           ["root"; "g"]%string 0%nat 4%nat
           (mkNode true ["root"]%string None (Some [1]%nat) (Some [2; 3]%nat)
                   None 0) [1]%nat [2; 3]%nat (Some 12%nat) 3 None).
  - vm_compute; reflexivity.
  - reflexivity.
  - reflexivity.
  - apply allocatedb_sound. vm_compute; reflexivity.
  - apply allocatedb_sound. vm_compute; reflexivity.
  - apply sorted_by_path_pair. vm_compute. discriminate.
  - vm_compute; reflexivity.
Defined.

Lemma restore_arrays (pn : node) (dl fl : list addr)
    (o : option (list addr)) :
  oDDirChildren pn = Some dl → oDFileChildren pn = Some fl →
  set_oDFileChildren (Some fl)
    (set_oDDirChildren (Some dl) (set_oDFileChildren o pn)) = pn.
Proof. destruct pn; simpl; by intros -> ->. Qed.

(** X9: creating a file and freeing it again is a round trip: under a
    parent whose two arrays are strictly sorted, [Node_free] of the file
    that [Node_new] has just created returns 1 and leaves the heap that
    [Node_new] was given. *)
Theorem Node_new_file_free (al : allocs) (h h' : heap) (oPPath : Path)
    (p a : addr) (pn : node) (dl fl : list addr) (pvContents : option nat)
    (ulLength : nat) :
  h !! p = Some pn →
  oDDirChildren pn = Some dl → oDFileChildren pn = Some fl →
  allocated h dl → allocated h fl →
  strictly_sorted h dl → strictly_sorted h fl →
  Node_new al h false oPPath (Some p) pvContents ulLength
    = Ok (SUCCESS, Some a, h') →
  frees h' a h 1.
Proof.
  intros Hp Hd Hf Hald Half Hsd Hsf H.
  destruct (Node_new_file_facts al h h' oPPath p a pn dl fl pvContents
              ulLength Hp Hd Hf Half (strictly_sorted_sorted h fl Hsf) H)
    as (i & i1 & Hi & Hfresh & Hne & Hdirs & Hpos & ->).
  set (nd := new_node false oPPath (Some p) pvContents ulLength).
  set (fl' := take i fl ++ a :: drop i fl).
  set (pn' := set_oDFileChildren (Some fl') pn).
  set (h' := <[a := nd]> (<[p := pn']> h)).
  assert (h' !! p = Some pn') as Hp'.
  { unfold h'. by rewrite lookup_insert_ne, lookup_insert_eq. }
  assert (h' !! a = Some nd) as Ha' by (unfold h'; by rewrite lookup_insert_eq).
  assert (path_at h' a = oPPath) as Hpa by (unfold path_at; by rewrite Ha').
  assert (∀ x, is_Some (h !! x) →
            path_of <$> h' !! x = path_of <$> h !! x) as Hpaths.
  { intros x Hx. by apply Node_new_file_paths. }
  assert (∀ l x, allocated h l → x ∈ l → path_at h' x = path_at h x) as Hpath_at.
  { intros l x Hl Hx. by apply path_at_ext, Hpaths, Hl. }
  (* no directory child has the new path *)
  assert (∀ y, y ∈ dl → Path_comparePath (path_at h y) oPPath ≠ 0) as Hdl.
  { destruct (bsearch_strict
                (λ e, Node_compareString h e (Path_getPathname oPPath)) dl
                (λ e, Path_compareString (path_at h e) (Path_getPathname oPPath))
                (Node_compareString_allocated h _ dl Hald)
                (strictly_sorted_key_strict_string h _ dl Hsd))
      as [(k1 & x & Hb & _)|(i2 & _ & Hfilter)]; [congruence|].
    intros y Hy. rewrite <- Hfilter in Hy.
    by apply list_elem_of_filter in Hy as [Hy _]. }
  (* the arrays of the parent after the creation *)
  assert (strictly_sorted h' fl') as Hsf'.
  { apply (strictly_sorted_insert h); [done..| |].
    - intros c Hc. by apply (Hpath_at fl).
    - by rewrite Hpa. }
  assert (allocated h' fl') as Half'.
  { intros x Hx. apply list_elem_of_lookup_1 in Hx as [m Hm]. unfold fl' in Hm.
    rewrite lookup_insert_at in Hm by done.
    repeat case_decide; simplify_eq; [|eauto|];
      (apply (allocated_ext h h' fl); [intros; by apply Hpaths, Half|done|]);
      by eapply list_elem_of_lookup_2. }
  assert (drop_path h' a dl = dl) as Hdrop_d.
  { apply drop_path_other. intros y Hy.
    rewrite Hpa, (Hpath_at dl y Hald Hy), Path_comparePath_antisym.
    specialize (Hdl y Hy). lia. }
  assert (drop_path h' a fl' = fl) as Hdrop_f.
  { unfold drop_path.
    rewrite (filter_delete_unique _ fl' i a).
    - by apply delete_insert_at.
    - unfold fl'. rewrite lookup_insert_at by done.
      rewrite decide_False by lia. by rewrite decide_True.
    - intros Hnot. apply Hnot, Path_comparePath_refl.
    - intros j y Hj Hy. simpl. unfold fl' in Hy.
      rewrite lookup_insert_at in Hy by done. rewrite Hpa.
      assert (∀ m, fl !! m = Some y → path_at h' y = path_at h y) as Hy'.
      { intros m Hm. apply (Hpath_at fl); [done|].
        by eapply list_elem_of_lookup_2. }
      repeat case_decide; simplify_eq.
      + rewrite (Hy' _ Hy). destruct (Hpos _ _ Hy) as [Hlt _].
        specialize (Hlt ltac:(done)). lia.
      + rewrite (Hy' _ Hy). destruct (Hpos _ _ Hy) as [_ Hgt].
        specialize (Hgt ltac:(lia)). lia. }
  assert (unlinked h' a pn' = pn) as Hunl.
  { unfold unlinked, pn'. simpl. rewrite Hd. simpl. fold fl'.
    rewrite Hdrop_d, Hdrop_f. by apply restore_arrays. }
  (* Node_free on the subtree of the new node *)
  assert (shape h' (Some p) (FNode a [] [])) as Hshape
    by (by apply (shape_leaf h' (Some p) a nd)).
  assert (NoDup (addrs (FNode a [] []))) as Hnodup.
  { simpl. apply NoDup_singleton. }
  assert (parent_ok h' (Some p) (FNode a [] [])) as Hpok.
  { split.
    - simpl. intros Hin. apply list_elem_of_singleton in Hin. congruence.
    - exists pn'. split; [done|]. unfold pn'. simpl. rewrite Hd. split.
      + split.
        * apply (allocated_ext h); [intros; by apply Hpaths, Hald|done].
        * apply (strictly_sorted_ext h); [intros; by apply Hpaths, Hald|done].
      + done. }
  pose proof (Node_free_tree (FNode a [] []) h' (Some p) Hshape Hnodup Hpok)
    as Hfree.
  assert (remove_all (addrs (FNode a [] []))
            (unlink_heap h' (root (FNode a [] [])) (Some p)) = h) as Heq.
  { simpl. unfold unlink_heap. rewrite Hp', Hunl. unfold h'.
    apply map_eq. intros q. rewrite lookup_delete.
    destruct (decide (a = q)) as [<-|Hqa]; [done|].
    destruct (decide (q = p)) as [->|Hqp].
    - by rewrite lookup_insert_eq.
    - by rewrite !lookup_insert_ne. }
  by rewrite Heq in Hfree.
Qed.

Lemma Node_new_file_free_witness : frees tree_files_g 4%nat tree_files 1.
Proof.
  apply (Node_new_file_free all_ok tree_files tree_files_g
           ["root"; "g"]%string 0%nat 4%nat
           (mkNode true ["root"]%string None (Some [1]%nat) (Some [2; 3]%nat)
                   None 0) [1]%nat [2; 3]%nat (Some 12%nat) 3).
  - vm_compute; reflexivity.
  - reflexivity.
  - reflexivity.
  - apply allocatedb_sound. vm_compute; reflexivity.
  - apply allocatedb_sound. vm_compute; reflexivity.
  - apply strictly_sorted_singleton.
  - apply strictly_sorted_pair. vm_compute; reflexivity.
  - vm_compute; reflexivity.
Defined.

(** ** Node_free on well-formed subtrees *)

(** X10: on a subtree whose nodes are distinct, linked to their parents
    and listed in strictly sorted arrays, [Node_free] returns the number
    of nodes of the subtree, frees each of them, and leaves every other
    node but the parent of the root as it was. *)
Theorem Node_free_well_formed (t : ftree) (h : heap) (parent : option addr) :
  shape h parent t → NoDup (addrs t) → parent_ok h parent t →
  ∃ h', frees h (root t) h' (length (addrs t)) ∧
    (∀ q, q ∈ addrs t → h' !! q = None) ∧
    (∀ q, q ∉ addrs t → parent ≠ Some q → h' !! q = h !! q).
Proof.
  intros Hshape Hnodup Hparent.
  exists (remove_all (addrs t) (unlink_heap h (root t) parent)).
  split; [by apply Node_free_tree|]. split.
  - intros q Hq. by rewrite lookup_remove_all, decide_True.
  - intros q Hq Hpar. rewrite lookup_remove_all, decide_False by done.
    unfold unlink_heap. destruct parent as [p|]; [|done].
    destruct (h !! p) as [pn|]; [|done].
    rewrite lookup_insert_ne; [done|]. congruence.
Qed.

Lemma dir1_shape : shape tree_scenario (Some 0%nat) dir1_tree.
Proof.
  unfold dir1_tree.
  eapply (shape_node _ (Some 0%nat) 1%nat _ [] [_]);
    [vm_compute; reflexivity|reflexivity..| | | | |];
    [apply strictly_sorted_nil|apply strictly_sorted_singleton| |by constructor|].
  { intros x y Hx. by apply elem_of_nil in Hx. }
  constructor; [|constructor].
  eapply shape_leaf; [vm_compute; reflexivity|reflexivity..].
Qed.

Lemma dir1_nodup : NoDup (addrs dir1_tree).
Proof. apply (bool_decide_unpack _). vm_compute. exact I. Qed.

Lemma dir1_parent_ok : parent_ok tree_scenario (Some 0%nat) dir1_tree.
Proof.
  split.
  - apply (bool_decide_unpack _). vm_compute. exact I.
  - eexists. split; [vm_compute; reflexivity|]. simpl. split.
    + split; [|apply strictly_sorted_singleton].
      apply allocatedb_sound. vm_compute; reflexivity.
    + split; [|apply strictly_sorted_nil].
      apply allocatedb_sound. reflexivity.
Qed.

Lemma Node_free_well_formed_witness :
  ∃ h', frees tree_scenario (root dir1_tree) h' (length (addrs dir1_tree)) ∧
    (∀ q, q ∈ addrs dir1_tree → h' !! q = None) ∧
    (∀ q, q ∉ addrs dir1_tree → Some 0%nat ≠ Some q →
       h' !! q = tree_scenario !! q).
Proof.
  apply (Node_free_well_formed dir1_tree tree_scenario (Some 0%nat)).
  - apply dir1_shape.
  - apply dir1_nodup.
  - apply dir1_parent_ok.
Defined.

Lemma Node_free_parent_sorted_witness :
  ∃ h', frees tree_scenario (root dir1_tree) h' (length (addrs dir1_tree)) ∧
    h' !! 0%nat
      = Some (unlinked tree_scenario (root dir1_tree)
                (mkNode true ["root"]%string None (Some [1]%nat) (Some [])
                        None 0)) ∧
    array_ok h'
      (oDDirChildren
         (unlinked tree_scenario (root dir1_tree)
            (mkNode true ["root"]%string None (Some [1]%nat) (Some [])
                    None 0))) ∧
    array_ok h'
      (oDFileChildren
         (unlinked tree_scenario (root dir1_tree)
            (mkNode true ["root"]%string None (Some [1]%nat) (Some [])
                    None 0))).
Proof.
  apply (Node_free_parent_sorted dir1_tree tree_scenario 0%nat).
  - apply dir1_shape.
  - apply dir1_nodup.
  - apply (bool_decide_unpack _). vm_compute. exact I.
  - vm_compute; reflexivity.
  - split; [|apply strictly_sorted_singleton].
    apply allocatedb_sound. vm_compute; reflexivity.
  - split; [|apply strictly_sorted_nil].
    apply allocatedb_sound. reflexivity.
  - intros d o x Ho Hx _. destruct d; simpl in Ho; injection Ho as <-.
    + by apply list_elem_of_singleton in Hx.
    + by apply elem_of_nil in Hx.
Defined.

Lemma Node_new_file_sorted_witness :
  ∃ i, (i ≤ length [2; 3]%nat)%nat ∧
    tree_files_g !! 0%nat
      = Some (set_oDFileChildren
                (Some (take i [2; 3]%nat ++ 4%nat :: drop i [2; 3]%nat))
                (mkNode true ["root"]%string None (Some [1]%nat)
                        (Some [2; 3]%nat) None 0)) ∧
    tree_files_g !! 4%nat
      = Some (mkNode false ["root"; "g"]%string (Some 0%nat) (Some [])
                     (Some []) (Some 12%nat) 3) ∧
    sorted_by_path tree_files_g (take i [2; 3]%nat ++ 4%nat :: drop i [2; 3]%nat).
Proof.
  apply (Node_new_file_sorted all_ok tree_files tree_files_g
           ["root"; "g"]%string 0%nat 4%nat
           (mkNode true ["root"]%string None (Some [1]%nat) (Some [2; 3]%nat)
                   None 0) [1]%nat [2; 3]%nat (Some 12%nat) 3).
  - vm_compute; reflexivity.
  - reflexivity.
  - reflexivity.
  - apply allocatedb_sound. vm_compute; reflexivity.
  - apply sorted_by_path_pair. vm_compute. discriminate.
  - vm_compute; reflexivity.
Defined.

(** A parent whose array [sel d] holds the node [x] at index [k], and
    whose other array has no entry of the path of [x], is left without
    that entry when [x] is unlinked. *)
Lemma unlinked_at (h : heap) (d : bool) (x : addr) (l : list addr) (k : nat)
    (nd : node) :
  sel d nd = Some l → l !! k = Some x → strictly_sorted h l →
  (∀ o y, sel (negb d) nd = Some o → y ∈ o →
     Path_comparePath (path_at h x) (path_at h y) ≠ 0) →
  unlinked h x nd = set_sel d (Some (delete k l)) nd.
Proof.
  intros Hsel Hk Hs Hother. unfold unlinked.
  assert (drop_path h x <$> sel d nd = Some (delete k l)) as Hd.
  { rewrite Hsel. simpl. f_equal. unfold drop_path.
    apply (filter_delete_unique _ l k x); [done| |].
    - intros Hnot. apply Hnot, Path_comparePath_refl.
    - intros j y Hj Hy. simpl.
      destruct (Nat.lt_trichotomy j k) as [Hlt|[?|Hgt]]; [|done|].
      + pose proof (Hs j k y x Hlt Hy Hk). lia.
      + pose proof (Hs k j x y Hgt Hk Hy).
        rewrite Path_comparePath_antisym. lia. }
  assert (drop_path h x <$> sel (negb d) nd = sel (negb d) nd) as Ho.
  { destruct (sel (negb d) nd) as [o|] eqn:Ho; [|done]. simpl.
    rewrite drop_path_other; [done|]. intros y Hy. by apply (Hother o). }
  destruct d; simpl in *.
  - rewrite Hd, Ho. by rewrite set_oDFileChildren_id.
  - rewrite Hd, Ho. destruct nd; simpl in *. unfold set_oDFileChildren,
      set_oDDirChildren. simpl. done.
Qed.

(** X12: [Node_free] of a child takes exactly that child out of its
    parent: when the child is entry [k] of one of the parent's arrays,
    both arrays are strictly sorted and the other array has no entry of
    the child's path, the parent is left with that array less its entry
    [k] and nothing else about it has changed. *)
Theorem Node_free_removes_child (t : ftree) (h : heap) (p : addr) (pn : node)
    (d : bool) (arr : list addr) (k : nat) :
  shape h (Some p) t → NoDup (addrs t) → p ∉ addrs t →
  h !! p = Some pn →
  array_ok h (oDDirChildren pn) → array_ok h (oDFileChildren pn) →
  sel d pn = Some arr → arr !! k = Some (root t) →
  (∀ o y, sel (negb d) pn = Some o → y ∈ o →
     Path_comparePath (path_at h (root t)) (path_at h y) ≠ 0) →
  ∃ h', frees h (root t) h' (length (addrs t)) ∧
    h' !! p = Some (set_sel d (Some (delete k arr)) pn).
Proof.
  intros Hshape Hnodup Hp Hpn Hd Hf Hsel Hk Hother.
  pose proof (Node_free_tree t h (Some p) Hshape Hnodup) as Hfree.
  unfold unlink_heap in Hfree. rewrite Hpn in Hfree.
  eexists. split; [apply Hfree; split; eauto|].
  rewrite lookup_remove_all, decide_False by done.
  rewrite lookup_insert_eq. f_equal.
  apply (unlinked_at h d (root t) arr k pn); try done.
  pose proof (proj2 (array_ok_sel h pn) (conj Hd Hf) d) as Hok.
  rewrite Hsel in Hok. by destruct Hok.
Qed.

Lemma Node_free_removes_child_witness :
  ∃ h', frees tree_scenario (root dir1_tree) h' (length (addrs dir1_tree)) ∧
    h' !! 0%nat
      = Some (set_sel true (Some (delete 0%nat [1]%nat))
                (mkNode true ["root"]%string None (Some [1]%nat) (Some [])
                        None 0)).
Proof.
  apply (Node_free_removes_child dir1_tree tree_scenario 0%nat
           (mkNode true ["root"]%string None (Some [1]%nat) (Some []) None 0)
           true [1]%nat 0%nat).
  - apply dir1_shape.
  - apply dir1_nodup.
  - apply (bool_decide_unpack _). vm_compute. exact I.
  - vm_compute; reflexivity.
  - split; [|apply strictly_sorted_singleton].
    apply allocatedb_sound. vm_compute; reflexivity.
  - split; [|apply strictly_sorted_nil].
    apply allocatedb_sound. reflexivity.
  - reflexivity.
  - reflexivity.
  - intros o y Ho Hy. simpl in Ho. injection Ho as <-.
    by apply elem_of_nil in Hy.
Defined.

(** ** Node_setDir and the comparators *)

(** [Node_hasChild] reads the paths and the arrays of the nodes, and
    nothing else. *)
Lemma Node_hasChild_ext (h g : heap) (p : addr) (oPPath : Path)
    (cell : option bool) :
  (∀ x, path_of <$> g !! x = path_of <$> h !! x) →
  (∀ x, oDDirChildren <$> g !! x = oDDirChildren <$> h !! x) →
  (∀ x, oDFileChildren <$> g !! x = oDFileChildren <$> h !! x) →
  Node_hasChild g p oPPath cell = Node_hasChild h p oPPath cell.
Proof.
  intros Hpath Hdirs Hfiles. unfold Node_hasChild, deref.
  specialize (Hdirs p). specialize (Hfiles p).
  destruct (g !! p) as [gn|], (h !! p) as [hn|]; simpl in *; try done.
  injection Hdirs as ->. injection Hfiles as ->.
  destruct (oDDirChildren hn) as [dl|]; simpl; [|done].
  unfold DynArray_bsearch.
  rewrite (bsearch_loop_ext
             (λ e, Node_compareString h e (Path_getPathname oPPath))
             (λ e, Node_compareString g e (Path_getPathname oPPath)) dl)
    by (intros; by apply Node_compareString_ext).
  destruct (bsearch_loop _ dl _ _ _) as [[[|] i1]| |]; simpl; try done.
  destruct (oDFileChildren hn) as [fl|]; simpl; [|done].
  by rewrite (bsearch_loop_ext
                (λ e, Node_compareString h e (Path_getPathname oPPath))
                (λ e, Node_compareString g e (Path_getPathname oPPath)) fl)
    by (intros; by apply Node_compareString_ext).
Qed.

(** X13: [Node_setDir] changes the flag of the node and nothing else,
    without looking at its children or contents: [Node_isDir] returns
    the new flag, the path, the parent, the two arrays, the contents and
    the length are kept, every other node is untouched, and no lookup by
    [Node_hasChild] in the heap gives another answer than before. *)
Theorem Node_setDir_spec (h : heap) (oNNode : addr) (nd : node)
    (isDirec : bool) :
  h !! oNNode = Some nd →
  ∃ h', Node_setDir h oNNode isDirec = Ok h' ∧
    Node_isDir h' oNNode = Ok isDirec ∧
    (∃ nd', h' !! oNNode = Some nd' ∧
       path_of nd' = path_of nd ∧ oNParent nd' = oNParent nd ∧
       oDDirChildren nd' = oDDirChildren nd ∧
       oDFileChildren nd' = oDFileChildren nd ∧
       fileContent nd' = fileContent nd ∧ fileSize nd' = fileSize nd) ∧
    (∀ q, q ≠ oNNode → h' !! q = h !! q) ∧
    (∀ p oPPath cell,
       Node_hasChild h' p oPPath cell = Node_hasChild h p oPPath cell).
Proof.
  intros Hn. unfold Node_setDir, Node_isDir, deref. rewrite Hn. simpl.
  eexists. split; [reflexivity|]. rewrite lookup_insert_eq. simpl.
  split; [done|]. split; [|split].
  - eexists. split; [reflexivity|]. done.
  - intros q Hq. by rewrite lookup_insert_ne.
  - intros p oPPath cell. apply Node_hasChild_ext; intros x;
      (destruct (decide (x = oNNode)) as [->|];
       [by rewrite lookup_insert_eq, Hn|by rewrite lookup_insert_ne]).
Qed.

Lemma Node_setDir_spec_witness :
  ∃ h', Node_setDir tree_files 0%nat false = Ok h' ∧
    Node_isDir h' 0%nat = Ok false ∧
    (∃ nd', h' !! 0%nat = Some nd' ∧
       path_of nd' = path_of (mkNode true ["root"]%string None (Some [1]%nat)
                                     (Some [2; 3]%nat) None 0) ∧
       oNParent nd' = None ∧
       oDDirChildren nd' = Some [1]%nat ∧
       oDFileChildren nd' = Some [2; 3]%nat ∧
       fileContent nd' = None ∧ fileSize nd' = 0%nat) ∧
    (∀ q, q ≠ 0%nat → h' !! q = tree_files !! q) ∧
    (∀ p oPPath cell,
       Node_hasChild h' p oPPath cell = Node_hasChild tree_files p oPPath cell).
Proof.
  apply (Node_setDir_spec tree_files 0%nat
           (mkNode true ["root"]%string None (Some [1]%nat) (Some [2; 3]%nat)
                   None 0) false).
  vm_compute; reflexivity.
Defined.

(** X14: [Node_compare] orders allocated nodes by pathname alone: it
    returns 0 exactly when the two pathnames are equal, swapping the
    arguments negates the result, and it agrees with
    [Node_compareString] on the pathname of the second node. *)
Theorem Node_compare_order (h : heap) (a b : addr) (na nb : node) :
  h !! a = Some na → h !! b = Some nb →
  (Node_compare h a b = Ok 0 ↔
     Path_getPathname (path_of na) = Path_getPathname (path_of nb)) ∧
  (∃ z, Node_compare h a b = Ok z ∧ Node_compare h b a = Ok (- z)) ∧
  Node_compareString h a (Path_getPathname (path_of nb)) = Node_compare h a b.
Proof.
  intros Ha Hb.
  rewrite (Node_compare_is_path_compare h a b na nb Ha Hb).
  rewrite (Node_compare_is_path_compare h b a nb na Hb Ha).
  split; [|split].
  - unfold Path_comparePath. split.
    + intros [= H0]. by apply strcmp_eq.
    + intros Heq. f_equal. by apply strcmp_eq.
  - eexists. split; [reflexivity|]. by rewrite Path_comparePath_antisym.
  - unfold Node_compareString, deref. by rewrite Ha.
Qed.

Lemma Node_compare_order_witness :
  (Node_compare compare_heap 1%nat 3%nat = Ok 0 ↔
     Path_getPathname (path_of file_b) = Path_getPathname (path_of dir_b)) ∧
  (∃ z, Node_compare compare_heap 1%nat 3%nat = Ok z ∧
     Node_compare compare_heap 3%nat 1%nat = Ok (- z)) ∧
  Node_compareString compare_heap 1%nat (Path_getPathname (path_of dir_b))
    = Node_compare compare_heap 1%nat 3%nat.
Proof.
  apply (Node_compare_order compare_heap 1%nat 3%nat file_b dir_b).
  - vm_compute; reflexivity.
  - vm_compute; reflexivity.
Defined.

(** ** Node_new: when it succeeds *)

(** X15: under a parent without file children, [Node_new] of a
    directory whose path no directory child has succeeds and puts the
    new node at the front of the directory children, before every
    directory that was there, whatever the paths are. *)
Theorem Node_new_directory_front (al : allocs) (h : heap) (oPPath : Path)
    (p : addr) (pn : node) (dl : list addr) (pvContents : option nat)
    (ulLength : nat) :
  malloc_ok al = true → dup_ok al = true → dirs_ok al = true →
  files_ok al = true → grow_ok al = true →
  h !! p = Some pn →
  oDDirChildren pn = Some dl → oDFileChildren pn = Some [] →
  no_match h oPPath dl →
  Path_getSharedPrefixDepth oPPath (path_of pn) = Path_getDepth (path_of pn) →
  Path_getDepth oPPath = (Path_getDepth (path_of pn) + 1)%nat →
  Node_new al h true oPPath (Some p) pvContents ulLength
    = Ok (SUCCESS, Some (fresh (dom h)),
          <[fresh (dom h) :=
              new_node true oPPath (Some p) pvContents ulLength]>
            (<[p := set_oDDirChildren (Some (fresh (dom h) :: dl)) pn]> h)).
Proof.
  intros Hm Hdup Hdo Hfo Hg Hp Hd Hf Hno Hshared Hdepth.
  destruct (bsearch_no_match h oPPath dl Hno) as (i1 & Hi1 & _).
  unfold Node_new, Node_hasChild, Node_addChild, deref.
  rewrite Hm, Hdup, Hdo, Hfo, Hg, Hp. simpl.
  case_decide; [lia|]. case_decide; [done|]. simpl.
  rewrite Hd. simpl. rewrite Hi1. simpl. rewrite Hf. simpl.
  reflexivity.
Qed.

Lemma Node_new_directory_front_witness :
  Node_new all_ok tree_ab true ["root"; "c"]%string (Some 0%nat) None 0
    = Ok (SUCCESS, Some (fresh (dom tree_ab)),
          <[fresh (dom tree_ab) :=
              new_node true ["root"; "c"]%string (Some 0%nat) None 0]>
            (<[0%nat := set_oDDirChildren
                          (Some (fresh (dom tree_ab) :: [2; 1]%nat))
                          (mkNode true ["root"]%string None
                                  (Some [2; 1]%nat) (Some []) None 0)]>
               tree_ab)).
Proof.
  apply (Node_new_directory_front all_ok tree_ab ["root"; "c"]%string 0%nat
           (mkNode true ["root"]%string None (Some [2; 1]%nat) (Some [])
                   None 0) [2; 1]%nat None 0);
    try reflexivity; try (vm_compute; reflexivity).
  apply no_matchb_sound. vm_compute; reflexivity.
Defined.

(** X16: [Node_new] of a file succeeds whenever every allocation does,
    the parent is the direct ancestor of the new path and none of its
    children has that path; the file is put into the array of file
    children, at an index within it. *)
Theorem Node_new_file_succeeds (al : allocs) (h : heap) (oPPath : Path)
    (p : addr) (pn : node) (dl fl : list addr) (pvContents : option nat)
    (ulLength : nat) :
  malloc_ok al = true → dup_ok al = true → dirs_ok al = true →
  files_ok al = true → grow_ok al = true →
  h !! p = Some pn →
  oDDirChildren pn = Some dl → oDFileChildren pn = Some fl →
  no_match h oPPath dl → no_match h oPPath fl →
  Path_getSharedPrefixDepth oPPath (path_of pn) = Path_getDepth (path_of pn) →
  Path_getDepth oPPath = (Path_getDepth (path_of pn) + 1)%nat →
  ∃ i, (i ≤ length fl)%nat ∧
    Node_new al h false oPPath (Some p) pvContents ulLength
      = Ok (SUCCESS, Some (fresh (dom h)),
            <[fresh (dom h) :=
                new_node false oPPath (Some p) pvContents ulLength]>
              (<[p := set_oDFileChildren
                        (Some (take i fl ++ fresh (dom h) :: drop i fl))
                        pn]> h)).
Proof.
  intros Hm Hdup Hdo Hfo Hg Hp Hd Hf Hnd Hnf Hshared Hdepth.
  destruct (bsearch_no_match h oPPath dl Hnd) as (i1 & Hi1 & _).
  destruct (bsearch_no_match h oPPath fl Hnf) as (i & Hi & Hlen).
  exists i. split; [done|].
  unfold Node_new, Node_hasChild, Node_addChild, deref.
  rewrite Hm, Hdup, Hdo, Hfo, Hg, Hp. simpl.
  case_decide; [lia|]. case_decide; [done|]. simpl.
  rewrite Hd. simpl. rewrite Hi1. simpl. rewrite Hf. simpl.
  rewrite Hi. simpl. unfold DynArray_addAt.
  case_decide; [|lia]. done.
Qed.

Lemma Node_new_file_succeeds_witness :
  ∃ i, (i ≤ length [2; 3]%nat)%nat ∧
    Node_new all_ok tree_files false ["root"; "g"]%string (Some 0%nat)
      (Some 12%nat) 3
      = Ok (SUCCESS, Some (fresh (dom tree_files)),
            <[fresh (dom tree_files) :=
                new_node false ["root"; "g"]%string (Some 0%nat)
                         (Some 12%nat) 3]>
              (<[0%nat := set_oDFileChildren
                            (Some (take i [2; 3]%nat
                                     ++ fresh (dom tree_files)
                                     :: drop i [2; 3]%nat))
                            (mkNode true ["root"]%string None (Some [1]%nat)
                                    (Some [2; 3]%nat) None 0)]>
                 tree_files)).
Proof.
  apply (Node_new_file_succeeds all_ok tree_files ["root"; "g"]%string 0%nat
           (mkNode true ["root"]%string None (Some [1]%nat) (Some [2; 3]%nat)
                   None 0) [1]%nat [2; 3]%nat (Some 12%nat) 3);
    try reflexivity; try (vm_compute; reflexivity).
  - apply no_matchb_sound. vm_compute; reflexivity.
  - apply no_matchb_sound. vm_compute; reflexivity.
Defined.

(** X17: without a parent, [Node_new] succeeds for every path of depth 1
    once its allocations succeed, whatever the heap already holds (an
    earlier root included): it adds the new node and touches no other. *)
Theorem Node_new_root (al : allocs) (h : heap) (isDirec : bool)
    (oPPath : Path) (pvContents : option nat) (ulLength : nat) :
  malloc_ok al = true → dup_ok al = true → dirs_ok al = true →
  files_ok al = true →
  Path_getDepth oPPath = 1%nat →
  Node_new al h isDirec oPPath None pvContents ulLength
    = Ok (SUCCESS, Some (fresh (dom h)),
          <[fresh (dom h) := new_node isDirec oPPath None pvContents ulLength]> h)
  ∧ h !! fresh (dom h) = None.
Proof.
  intros Hm Hdup Hdo Hfo Hdepth. split; [|apply not_elem_of_dom, is_fresh].
  unfold Node_new. rewrite Hm, Hdup, Hdo, Hfo. simpl.
  case_decide; [done|]. simpl. by destruct isDirec.
Qed.

Lemma Node_new_root_witness :
  Node_new all_ok tree_root true ["other"]%string None None 0
    = Ok (SUCCESS, Some (fresh (dom tree_root)),
          <[fresh (dom tree_root) :=
              new_node true ["other"]%string None None 0]> tree_root)
  ∧ tree_root !! fresh (dom tree_root) = None.
Proof.
  apply (Node_new_root all_ok tree_root true ["other"]%string None 0);
    reflexivity.
Defined.

(** X18: [Node_new] returns [CONFLICTING_PATH] exactly when the struct
    and the copy of the path are allocated and the parent given shares
    with the new path a prefix shorter than its own depth. *)
Theorem Node_new_conflicting_path_iff (al : allocs) (h : heap)
    (isDirec : bool) (oPPath : Path) (oNParent : option addr)
    (pvContents : option nat) (ulLength : nat) :
  (∃ res h', Node_new al h isDirec oPPath oNParent pvContents ulLength
               = Ok (CONFLICTING_PATH, res, h'))
  ↔ malloc_ok al = true ∧ dup_ok al = true ∧
    ∃ p pn, oNParent = Some p ∧ h !! p = Some pn ∧
      (Path_getSharedPrefixDepth oPPath (path_of pn)
         < Path_getDepth (path_of pn))%nat.
Proof.
  unfold Node_new. split.
  - intros (res & h' & H).
    destruct (malloc_ok al); simpl in H; [|discriminate].
    destruct (dup_ok al); simpl in H; [|discriminate].
    split; [done|]. split; [done|].
    bind_inv H as chk Hchk. destruct oNParent as [p|].
    + bind_inv Hchk as pn Hpn. apply deref_Ok in Hpn. exists p, pn.
      split; [done|]. split; [done|].
      case_decide as H1; [done|].
      case_decide as H2; [by injection Hchk as <-|].
      bind_inv Hchk as [[found i] cell] Hhas.
      destruct found; injection Hchk as <-; [discriminate|].
      destruct (dirs_ok al), (files_ok al); simpl in H; try discriminate.
      bind_inv H as [st h1] Hlink.
      apply Node_addChild_status in Hlink as [[-> _]|[-> _]];
        case_decide; discriminate.
    + case_decide; [by injection Hchk as <-|]. injection Hchk as <-.
      destruct (dirs_ok al), (files_ok al); discriminate.
  - intros (-> & -> & p & pn & -> & Hp & Hlt). simpl.
    unfold deref. rewrite Hp. simpl. case_decide; [|contradiction].
    simpl. eauto.
Qed.



